(** * hapy.stats.stats: haplotype construction and tier selection

    A shallow embedding of the haplotype pipeline of [hapy/stats/stats.py]:
    the amino-acid block resolver ([checkAAblock], [get_aminoacids],
    [getRefAA]), the hard-call haplotype matrix builder ([makehaplodf],
    [obt_haplo_hard]), the nested-model tests ([lrtest], [anova]) and the
    per-variant orchestrators ([analyseAA], [analyseSNP]).

    Conventions.
    - A pandas frame is a list of labelled rows or columns, in frame order.
    - Python [str] is [string]; a one-character string is built from its
      [ascii].
    - Python [float] is Rocq's binary64 [float] wherever the source computes
      on statistics; ratios of integer counts are kept as exact rationals
      (see [highfreq]).
    - A Python exception is an [inl] of [pyerror]. *)

From Stdlib Require Import List Arith Lia Bool Ascii String.
From Stdlib Require Import Sorting.Permutation Sorting.Sorted.
From Stdlib Require Import ZArith QArith.
From Stdlib Require Import Floats.
From Stdlib Require Uint63.
Import ListNotations.

Set Implicit Arguments.

Local Open Scope nat_scope.
Local Open Scope string_scope.
Local Open Scope list_scope.

(** ** Python values that the source relies on *)

Inductive pyerror : Type :=
| KeyError (key : string)
| NameError (name : string)
| ValueError (msg : string).

Definition result (A : Type) : Type := (pyerror + A)%type.

Definition ret {A : Type} (a : A) : result A := inr a.
Definition raise {A : Type} (e : pyerror) : result A := inl e.

Definition bind {A B : Type} (m : result A) (k : A -> result B) : result B :=
  match m with
  | inl e => inl e
  | inr a => k a
  end.

Notation "x <- m ;; k" := (bind m (fun x => k))
  (at level 61, m at next level, right associativity).

(** [str.split(sep)[0]]: the text before the first separator. *)
Fixpoint split_first (sep : ascii) (s : string) : string :=
  match s with
  | EmptyString => EmptyString
  | String c s' => if Ascii.eqb c sep then EmptyString else String c (split_first sep s')
  end.

(** [str.split(sep)[-1]]: the text after the last separator. *)
Fixpoint split_last_aux (sep : ascii) (s acc : string) : string :=
  match s with
  | EmptyString => acc
  | String c s' =>
      if Ascii.eqb c sep then split_last_aux sep s' EmptyString
      else split_last_aux sep s' (acc ++ String c EmptyString)%string
  end.

Definition split_last (sep : ascii) (s : string) : string :=
  split_last_aux sep s EmptyString.

(** ["".join(l)] *)
Definition join_empty (l : list string) : string :=
  fold_right String.append EmptyString l.

(** [sep.join(l)] *)
Fixpoint join (sep : string) (l : list string) : string :=
  match l with
  | [] => EmptyString
  | [x] => x
  | x :: l' => (x ++ sep ++ join sep l')%string
  end.

(** ["".join(np.repeat(c, n))] *)
Fixpoint repeat_char (c : ascii) (n : nat) : string :=
  match n with
  | O => EmptyString
  | S n' => String c (repeat_char c n')
  end.

Definition str1 (c : ascii) : string := String c EmptyString.

(** ** Stable sorting

    Python's [sorted] and pandas' group keys are stable orderings; an
    insertion sort that places a new element in front of the first element
    it is allowed to precede is stable when the list is consumed from the
    right. *)

Section StableSort.
Variable A : Type.
(** [before x y]: [x] may stand in front of [y]. *)
Variable before : A -> A -> bool.

Fixpoint insert_sorted (x : A) (l : list A) : list A :=
  match l with
  | [] => [x]
  | y :: l' => if before x y then x :: y :: l' else y :: insert_sorted x l'
  end.

Definition stable_sort (l : list A) : list A :=
  fold_right insert_sorted [] l.

End StableSort.

(** ** Allele/haplotype resolver *)

(** What [checkAAblock] hands back: Python returns either a [str] (one
    code) or the block it was given, untouched. *)
Inductive aablock_result : Type :=
| Single (code : string)
| AsBlock (block : list string).

(** [[x for i in aablock for x in list(i)]] *)
Definition flatten_block (aablock : list string) : list ascii :=
  List.concat (List.map list_ascii_of_string aablock).

(** [collections.Counter]: a dict, so keys stay in first-insertion order. *)
Fixpoint counter_add (c : ascii) (m : list (ascii * nat)) : list (ascii * nat) :=
  match m with
  | [] => [(c, 1)]
  | (k, n) :: m' =>
      if Ascii.eqb k c then (k, S n) :: m' else (k, n) :: counter_add c m'
  end.

Definition Counter (l : list ascii) : list (ascii * nat) :=
  fold_left (fun m c => counter_add c m) l [].

(** [sorted(items, key=lambda item: item[1], reverse=True)]: stable, larger
    counts first. *)
Definition count_before (x y : ascii * nat) : bool := Nat.leb (snd y) (snd x).

Definition sorted_by_count (m : list (ascii * nat)) : list (ascii * nat) :=
  stable_sort count_before m.

(** [aablock[0]] is only reached when one letter was counted, hence on a
    non-empty block; the default is never used (see [one_letter_nonempty]). *)
Definition checkAAblock (aablock : list string) : aablock_result :=
  let aminoacids := sorted_by_count (Counter (flatten_block aablock)) in
  match aminoacids with
  | (k0, n0) :: (k1, n1) :: _ =>
      if negb (Nat.eqb n0 n1) then Single (str1 k0) else AsBlock aablock
  | [_] => Single (hd EmptyString aablock)
  | [] => Single EmptyString
  end.

(** Python truthiness of the value returned by [checkAAblock]. *)
Definition truthy (r : aablock_result) : bool :=
  match r with
  | Single EmptyString => false
  | Single _ => true
  | AsBlock [] => false
  | AsBlock _ => true
  end.

Definition is_presence (c : ascii) : bool :=
  (Ascii.eqb c "P" || Ascii.eqb c "T" || Ascii.eqb c "p")%bool.

(** [np.where((haplo=="P") | (haplo=="T") | (haplo=="p"))[0]] followed by
    [aalist[presence]]: the entries of [aalist] at the presence positions of
    the haplotype label. A label is as long as [aalist] (one character per
    row), so no index falls outside. *)
Fixpoint select_presence (haplo : list ascii) (aalist : list string) : list string :=
  match haplo, aalist with
  | c :: haplo', a :: aalist' =>
      if is_presence c then a :: select_presence haplo' aalist'
      else select_presence haplo' aalist'
  | _, _ => []
  end.

Definition get_aminoacids (idlist : list string) (haplotypes : list string)
  : list aablock_result :=
  let aalist := map (split_last "_") idlist in
  filter truthy
    (map (fun x => checkAAblock (select_presence (list_ascii_of_string x) aalist))
       haplotypes).

Definition getRefAA (haplo : string) (aalist : list string) : aablock_result :=
  let aminoacids := map (split_last "_") aalist in
  checkAAblock (select_presence (list_ascii_of_string haplo) aminoacids).

(** ** Haplotype matrix builder (hard calls) *)

(** The slice of the data table for one [AA_ID], without its [AA_ID]
    column: [samples] are the column names (one per sample copy, the second
    copy named [<id>.1]) and each row is a variant id with one call per
    column. *)
Record block : Type := mkBlock {
  samples : list string;
  rows : list (string * list string)
}.

(** Every row has one call per sample-copy column, and a call is one
    character. *)
Definition wf_block (b : block) : Prop :=
  Forall (fun r => List.length (snd r) = List.length (samples b)
                   /\ Forall (fun call => String.length call = 1) (snd r))
    (rows b).

(** A count frame: [index] are the row labels and every column carries its
    label and one count per row. *)
Record frame : Type := mkFrame {
  index : list string;
  columns : list (string * list nat)
}.

Definition column_names (df : frame) : list string := map fst (columns df).

(** [df.shape[1]] *)
Definition ncols (df : frame) : nat := List.length (columns df).

(** [df.shape[0]] *)
Definition nrows (df : frame) : nat := List.length (index df).

(** [df.sum(0)], one total per column. *)
Definition column_total (col : string * list nat) : nat := list_sum (snd col).

Definition column_totals (df : frame) : list nat := map column_total (columns df).

(** [df.drop(label, axis=1)]: [KeyError] when no column has that label. *)
Definition drop_column (label : string) (df : frame) : result frame :=
  if existsb (String.eqb label) (column_names df)
  then ret (mkFrame (index df)
              (filter (fun col => negb (String.eqb (fst col) label)) (columns df)))
  else raise (KeyError label).

(** [df.apply(lambda x : "".join(x), axis=1)] after the transpose: the
    label of sample copy [j] is the concatenation of its calls, in row order. *)
Definition haplo_label (b : block) (j : nat) : string :=
  join_empty (map (fun r => nth j (snd r) EmptyString) (rows b)).

(** The two grouping keys of every sample copy, in column order:
    [x.split(".")[0]] of the column name and the haplotype label. *)
Definition copy_keys (b : block) : list (string * string) :=
  map (fun j => (split_first "." (nth j (samples b) EmptyString), haplo_label b j))
    (seq 0 (List.length (samples b))).

(** Group keys come out sorted and without repetition. *)
Definition sorted_unique (l : list string) : list string :=
  stable_sort String.leb (nodup string_dec l).

Definition pair_eqb (p q : string * string) : bool :=
  (String.eqb (fst p) (fst q) && String.eqb (snd p) (snd q))%bool.

(** [.size()] of one group. *)
Definition group_size (keys : list (string * string)) (r c : string) : nat :=
  List.length (filter (pair_eqb (r, c)) keys).

(** [df.groupby(["index", "haplo"]).size().unstack(fill_value=0)] *)
Definition count_matrix (b : block) : frame :=
  let keys := copy_keys b in
  let idx := sorted_unique (map fst keys) in
  let labels := sorted_unique (map snd keys) in
  mkFrame idx (map (fun c => (c, map (fun r => group_size keys r c) idx)) labels).

(** [df.sum(0)/2/df.shape[0] > 0.01] on one column. The source divides in
    binary64; the totals are integer counts, and the ratio is kept here as
    an exact rational, compared with one hundredth. *)
Definition haplo_freq (total n : nat) : Q :=
  (inject_Z (Z.of_nat total) / 2 / inject_Z (Z.of_nat n))%Q.

Definition highfreq (total n : nat) : bool :=
  negb (Qle_bool (haplo_freq total n) (1 # 100)).

(** [df[highfreq.index]]: the columns that pass, in frame order. *)
Definition frequency_floor (df : frame) : frame :=
  mkFrame (index df)
    (filter (fun col => highfreq (column_total col) (nrows df)) (columns df)).

(** The closing [df.sort_index()] leaves the frame as it is: the group keys
    of the rows are already in order. *)
Definition makehaplodf (aa_df : block) (basicQC : bool)
  : frame * list aablock_result :=
  let aminoacids := map fst (rows aa_df) in
  let df := count_matrix aa_df in
  let df := if basicQC then frequency_floor df else df in
  let haplo := column_names df in
  (df, get_aminoacids aminoacids haplo).

(** ** Reference selection *)

(** [np.argmax]: the position of the first largest entry; numpy raises
    [ValueError] on an empty sequence. *)
Fixpoint argmax_from (best_i best_v i : nat) (l : list nat) : nat :=
  match l with
  | [] => best_i
  | v :: l' =>
      if Nat.ltb best_v v then argmax_from i v (S i) l'
      else argmax_from best_i best_v (S i) l'
  end.

Definition argmax (l : list nat) : result nat :=
  match l with
  | [] => raise (ValueError "attempt to get argmax of an empty sequence")
  | v :: l' => ret (argmax_from 0 v 1 l')
  end.

(** The five values [obt_haplo_hard] and [obt_haplo_soft] return, over the
    kind of matrix [T] they build. *)
Record haplo_out (T : Type) : Type := mkHaploOut {
  haplodf : T;
  AAcount : nat;
  refAA : aablock_result;
  aalist : list aablock_result;
  haplocount : nat
}.

Definition obt_haplo_hard (aadf : block) : result (haplo_out frame) :=
  let shape0 := List.length (rows aadf) in
  if Nat.ltb 1 shape0 then
    let '(haplodf, aalist) := makehaplodf aadf true in
    let AAcount := ncols haplodf in
    let missing := repeat_char "A" shape0 in
    let missing2 := repeat_char "a" shape0 in
    if (existsb (String.eqb missing) (column_names haplodf)
        || existsb (String.eqb missing2) (column_names haplodf))%bool
    then
      haplodf <- drop_column missing haplodf ;;
      ret (mkHaploOut haplodf AAcount (Single "missing") aalist (ncols haplodf))
    else
      refix <- argmax (column_totals haplodf) ;;
      let refcol := nth refix (column_names haplodf) EmptyString in
      haplodf <- drop_column refcol haplodf ;;
      ret (mkHaploOut haplodf AAcount
             (getRefAA refcol (map fst (rows aadf))) aalist (ncols haplodf))
  else
    let '(haplodf, _) := makehaplodf aadf true in
    let aalist := column_names haplodf in
    if Nat.ltb 1 (List.length aalist) then
      refix <- argmax (column_totals haplodf) ;;
      let refcol := nth refix (column_names haplodf) EmptyString in
      haplodf <- drop_column refcol haplodf ;;
      ret (mkHaploOut haplodf 2 (Single refcol) (map Single aalist) (ncols haplodf))
    else
      let aalist := aalist ++ ["missing"] in
      ret (mkHaploOut haplodf 0 (Single (hd EmptyString aalist))
             (map Single aalist) (ncols haplodf)).

(** ** Significance testing *)

(** The attributes the source reads off a fitted statsmodels result. *)
Record fitted : Type := mkFitted {
  llf : float;
  df_model : float;
  ssr : float;
  df_resid : float;
  scale : float;
  predict : list float;
  params : string -> float;
  pvalues : string -> float;
  conf_int : string -> float * float
}.

(** The covariate table after [set_index("IID")]. *)
Record fam : Type := mkFam {
  IID : list string;
  SEX : list float;
  PHENO : list float
}.

(** What the model fitter needs from a haplotype or dosage matrix: its
    column labels. *)
Class Table (T : Type) : Type := table_columns : T -> list string.

#[global] Instance frame_Table : Table frame := column_names.

(** [pd.concat([haplodf, fam], axis=1)] *)
Record abt (T : Type) : Type := mkAbt {
  exposure : T;
  covariates : fam
}.

Definition abt_columns {T : Type} `{Table T} (a : abt T) : list string :=
  table_columns (exposure a) ++ ["SEX"; "PHENO"].

(** [l[:-2]], [l[:n]] and [l[n:-2]] *)
Definition but_last2 {A : Type} (l : list A) : list A :=
  firstn (List.length l - 2) l.

Definition lower_ascii (c : ascii) : ascii :=
  let n := nat_of_ascii c in
  if (Nat.leb 65 n && Nat.leb n 90)%bool then ascii_of_nat (n + 32) else c.

(** [str.lower] on ASCII text. *)
Fixpoint lower (s : string) : string :=
  match s with
  | EmptyString => EmptyString
  | String c s' => String (lower_ascii c) (lower s')
  end.

Definition fillna0 (x : float) : float :=
  if PrimFloat.is_nan x then 0%float else x.

Definition replace0_nan (x : float) : float :=
  if PrimFloat.eqb x 0%float then PrimFloat.nan else x.

(** One entry of [output[["LR_p","Uni_p"]].fillna(0).sum(1).replace(0, np.nan)] *)
Definition LRp_Unip_of (lr_p uni_p : float) : float :=
  replace0_nan (fillna0 lr_p + fillna0 uni_p)%float.

Section Statistics.

(** [scipy.stats.chi2.sf], [scipy.stats.f.sf] and
    [sklearn.metrics.log_loss(..., normalize=False)] *)
Variable chi2_sf : float -> float -> float.
Variable f_sf : float -> float -> float -> float.
Variable log_loss : list float -> list (float * float) -> float.

Definition lrtest (nullmodel altmodel : fitted) : float * float :=
  let alt_llf := llf altmodel in
  let null_llf := llf nullmodel in
  let lr := (2 * (alt_llf - null_llf))%float in
  let all_dof := df_model altmodel in
  let null_dof := df_model nullmodel in
  let dof := (all_dof - null_dof)%float in
  let p := chi2_sf lr dof in
  (lr, p).

Definition deviance (ytrue : list float) (model : fitted) : float :=
  let ypred := predict model in
  let ypred := map (fun y => ((1 - y)%float, y)) ypred in
  (2 * log_loss ytrue ypred)%float.

Definition anova (nullmodel altmodel : fitted) (ytrue : list float)
  (modeltype : string) : float * float :=
  let '(alt_ssr, null_ssr) :=
    if String.eqb modeltype "logit"
    then (deviance ytrue altmodel, deviance ytrue nullmodel)
    else (ssr altmodel, ssr nullmodel) in
  let alt_df_resid := df_resid altmodel in
  let null_df_resid := df_resid nullmodel in
  let ssdiff := (null_ssr - alt_ssr)%float in
  let dof := (null_df_resid - alt_df_resid)%float in
  let fvalue := (ssdiff / dof / scale altmodel)%float in
  let pvalue := f_sf fvalue dof alt_df_resid in
  (fvalue, pvalue).

(** ** Model fitter *)

Context {T : Type} `{Table T}.

(** [smf.glm(formula, data, family=Binomial()).fit()], [smf.ols(formula,
    data).fit()] and Python's [round(x, 3)] *)
Variable glm_binomial : string -> abt T -> fitted.
Variable ols : string -> abt T -> fitted.
Variable round3 : float -> float.

Definition obt (dataframe : abt T) (haplotypenumber : nat) (model : string)
  : float * float * float * float * list float :=
  let abt := dataframe in
  let altf := ("PHENO ~ C(SEX) +" ++ join "+" (but_last2 (abt_columns abt)))%string in
  let nullf :=
    if Nat.ltb 0 (List.length (skipn haplotypenumber (but_last2 (abt_columns abt))))
    then ("PHENO ~ C(SEX) +"
            ++ join "+" (skipn haplotypenumber (but_last2 (abt_columns abt))))%string
    else "PHENO ~ C(SEX)" in
  let '(alt_model, null_model) :=
    if String.eqb (lower model) "logit"
    then (glm_binomial altf abt, glm_binomial nullf abt)
    else (ols altf abt, ols nullf abt) in
  let '(lrstat, lrp) := lrtest null_model alt_model in
  let '(fstat, fp) := anova null_model alt_model (PHENO (covariates abt)) model in
  let coefs :=
    map (fun col => round3 (params alt_model col))
      (firstn haplotypenumber (abt_columns abt)) in
  (lrstat, lrp, fstat, fp, coefs).

Definition linear_model (dataframe : abt T) (model : string)
  : float * float * float * float :=
  let abt := dataframe in
  let f := ("PHENO ~ C(SEX) +" ++ join "+" (but_last2 (abt_columns abt)))%string in
  let model :=
    if String.eqb (lower model) "logit" then glm_binomial f abt else ols f abt in
  let col0 := hd EmptyString (abt_columns abt) in
  let pvalue := pvalues model col0 in
  let coef := params model col0 in
  let '(ci1, ci2) := conf_int model col0 in
  (pvalue, round3 coef, ci1, ci2).

End Statistics.

(** ** Per-variant orchestrators *)

(** A cell of the output table that holds either a number (the
    not-applicable marker is the float NaN) or text. *)
Inductive cell : Type :=
| CFloat (x : float)
| CStr (s : string)
| CBlock (block : list string).

Definition NaN : cell := CFloat PrimFloat.nan.

Definition cell_of_result (r : aablock_result) : cell :=
  match r with
  | Single s => CStr s
  | AsBlock l => CBlock l
  end.

(** The identity columns of a variant, read off its info rows. *)
Record variant_info : Type := mkInfo {
  info_AA_ID : string;
  info_GENE : string;
  info_AA_POS : string;
  info_POS : string
}.

Record aa_row : Type := mkAARow {
  VARIANT : string;
  GENE : string;
  AA_POS : string;
  LR_p : float;
  Anova_p : float;
  multi_Coef : cell;
  Uni_p : float;
  Uni_Coef : float;
  Amino_Acids : string;
  Ref_AA : cell
}.

(** A row of the table [analyseAA] returns: the appended row and its entry
    in the derived [LRp_Unip] column. *)
Record aa_output_row : Type := mkAAOut {
  appended : aa_row;
  LRp_Unip : float
}.

Record snp_row : Type := mkSNPRow {
  snp_VARIANT : string;
  snp_POS : string;
  snp_Uni_p : float;
  snp_Uni_Coef : float;
  CI_lo : float;
  CI_hi : float
}.

(** [nu_snpdf.columns = ["snp_{}".format(col) for col in nu_snpdf.columns]] *)
Definition rename_columns (f : string -> string) (df : frame) : frame :=
  mkFrame (index df) (map (fun col => (f (fst col), snd col)) (columns df)).

(** [mapM] over the variants, stopping at the first exception. *)
Fixpoint for_each {A B : Type} (f : A -> result B) (l : list A) : result (list B) :=
  match l with
  | [] => ret []
  | x :: l' => y <- f x ;; ys <- for_each f l' ;; ret (y :: ys)
  end.

Section Orchestrators.

Variable chi2_sf : float -> float -> float.
Variable f_sf : float -> float -> float -> float.
Variable log_loss : list float -> list (float * float) -> float.
Variable round3 : float -> float.

(** [str] of a float, [str] of a resolved amino acid and the iteration
    order of [set(l)], which Python leaves unspecified. *)
Variable str_float : float -> string.
Variable str_result : aablock_result -> string.
Variable set_iter : list string -> list string.

Section AA.

Context {T : Type} `{Table T}.
Variable glm_binomial : string -> abt T -> fitted.
Variable ols : string -> abt T -> fitted.

(** The body of the loop of [analyseAA], from the builder's five values to
    the appended row. *)
Definition analyseAA_row (info : variant_info) (h : haplo_out T)
  (fam_ : fam) (modeltype : string) : aa_row :=
  let abt := mkAbt (haplodf h) fam_ in
  let '(lrp, anovap, multicoef, uni_p, coef, refAA_) :=
    if Nat.ltb 2 (AAcount h) then
      let '(_, lrp, _, anovap, multicoef) :=
        obt chi2_sf f_sf log_loss glm_binomial ols round3 abt (haplocount h) modeltype in
      let multicoef := map str_float multicoef in
      let multicoef := join ", " multicoef in
      (lrp, anovap, CStr multicoef, PrimFloat.nan, PrimFloat.nan,
       cell_of_result (refAA h))
    else if Nat.eqb (AAcount h) 2 then
      let '(uni_p, coef, _, _) := linear_model glm_binomial ols round3 abt modeltype in
      (PrimFloat.nan, PrimFloat.nan, NaN, uni_p, coef, cell_of_result (refAA h))
    else
      (PrimFloat.nan, PrimFloat.nan, NaN, PrimFloat.nan, PrimFloat.nan, NaN) in
  let aalist_ := map str_result (aalist h) in
  let aalist_ := join ", " (set_iter aalist_) in
  mkAARow (info_AA_ID info) (info_GENE info) (info_AA_POS info)
    lrp anovap multicoef uni_p coef aalist_ refAA_.

(** [analyseAA] over the variants in iteration order; [build] is the
    builder chosen by [hladat.type] ([obt_haplo_hard] on hard calls). *)
Definition analyseAA {V : Type} (build : V -> result (haplo_out T))
  (variants : list (variant_info * V)) (fam_ : fam) (modeltype : string)
  : result (list aa_output_row) :=
  output <- for_each (fun x =>
                        h <- build (snd x) ;;
                        ret (analyseAA_row (fst x) h fam_ modeltype)) variants ;;
  ret (map (fun r => mkAAOut r (LRp_Unip_of (LR_p r) (Uni_p r))) output).

End AA.

Variable glm_binomial : string -> abt frame -> fitted.
Variable ols : string -> abt frame -> fitted.

(** The loop of [analyseSNP] on hard calls. [conf_int] is the pair of local
    names [conf_int1], [conf_int2]: unbound ([None]) until an iteration
    assigns them, and never cleared between iterations. *)
Fixpoint analyseSNP_loop (variants : list (variant_info * block)) (fam_ : fam)
  (modeltype : string) (conf_int_ : option (float * float)) (output : list snp_row)
  : result (list snp_row) :=
  match variants with
  | [] => ret output
  | (snpinfo, snpdf) :: variants' =>
      h <- obt_haplo_hard snpdf ;;
      let nu_snpdf := rename_columns (String.append "snp_") (haplodf h) in
      let abt := mkAbt nu_snpdf fam_ in
      let '(uni_p, coef, conf_int_) :=
        if Nat.eqb (AAcount h) 2 then
          let '(uni_p, coef, conf_int1, conf_int2) :=
            linear_model glm_binomial ols round3 abt modeltype in
          (uni_p, coef, Some (conf_int1, conf_int2))
        else (PrimFloat.nan, PrimFloat.nan, conf_int_) in
      match conf_int_ with
      | None => raise (NameError "conf_int1")
      | Some (conf_int1, conf_int2) =>
          analyseSNP_loop variants' fam_ modeltype conf_int_
            (output ++ [mkSNPRow (info_AA_ID snpinfo) (info_POS snpinfo)
                          uni_p coef conf_int1 conf_int2])
      end
  end.

Definition analyseSNP (variants : list (variant_info * block)) (fam_ : fam)
  (modeltype : string) : result (list snp_row) :=
  analyseSNP_loop variants fam_ modeltype None [].

End Orchestrators.

(** ** Vocabulary of the statements *)

(** [a] may come before [b] in a list ordered by decreasing key. *)
Definition key_desc (A : Type) (key : A -> nat) (a b : A) : Prop := key b <= key a.

(** How often a letter occurs in a block, all codes taken together. *)
Definition letter_count (aablock : list string) (c : ascii) : nat :=
  count_occ ascii_dec (flatten_block aablock) c.

(** The count a [Counter] holds for a key, 0 when absent. *)
Fixpoint counter_get (m : list (ascii * nat)) (k : ascii) : nat :=
  match m with
  | [] => 0
  | (k', n) :: m' => if Ascii.eqb k' k then n else counter_get m' k
  end.

(** The base sample ids of a block, one per sample-copy column, and the
    number of base samples. *)
Definition base_ids (b : block) : list string :=
  map (split_first ".") (samples b).

Definition base_samples (b : block) : nat :=
  List.length (nodup string_dec (base_ids b)).

(** Every base sample comes with exactly two haplotype-copy columns. *)
Definition diploid (b : block) : Prop :=
  forall r, In r (base_ids b) -> count_occ string_dec (base_ids b) r = 2.

Definition Qsum (l : list Q) : Q := fold_right Qplus 0%Q l.

(** Column total divided by (2 x number of rows). *)
Definition normalized_mass (total n : nat) : Q :=
  (inject_Z (Z.of_nat total) / (2 * inject_Z (Z.of_nat n)))%Q.

(** ** Worked inputs

    Two samples, two copies each. [example_multi] is a two-row amino-acid
    block in upper-case codes, [example_lower] the same block in lower-case
    absence codes, [example_both] a block in which both spellings of the
    all-absence label occur, [example_snp] a one-row block with two labels
    and [example_mono] a one-row block with a single label. *)
Definition example_samples : list string := ["S1"; "S1.1"; "S2"; "S2.1"].

Definition example_multi : block :=
  mkBlock example_samples
    [("AA_A_9_29910558_F", ["A"; "A"; "A"; "T"]);
     ("AA_A_9_29910558_Y", ["A"; "A"; "T"; "A"])].

Definition example_lower : block :=
  mkBlock example_samples
    [("AA_A_9_29910558_F", ["a"; "a"; "a"; "T"]);
     ("AA_A_9_29910558_Y", ["a"; "a"; "T"; "a"])].

Definition example_both : block :=
  mkBlock example_samples
    [("AA_A_9_29910558_F", ["a"; "A"; "a"; "T"]);
     ("AA_A_9_29910558_Y", ["a"; "A"; "T"; "a"])].

Definition example_snp : block :=
  mkBlock example_samples [("SNP_A_30018316", ["A"; "A"; "A"; "T"])].

Definition example_snp' : block :=
  mkBlock example_samples [("SNP_A_30018316", ["A"; "T"; "A"; "T"])].

Definition example_mono : block :=
  mkBlock example_samples [("SNP_A_30018457", ["A"; "A"; "A"; "A"])].

(** ** Variant ids ([hapy/data/io.py]) *)

(** [str.split(sep)] for a one-character separator: at least one token,
    empty tokens kept. *)
Fixpoint split (sep : ascii) (s : string) : list string :=
  match s with
  | EmptyString => [EmptyString]
  | String c s' =>
      if Ascii.eqb c sep then EmptyString :: split sep s'
      else match split sep s' with
           | t :: ts => String c t :: ts
           | [] => [String c EmptyString]
           end
  end.

(** [tokens[i]] after [tokens] was padded with [np.nan] up to four entries. *)
Definition token_or_nan (tokens : list string) (i : nat) : cell :=
  match nth_error tokens i with
  | Some t => CStr t
  | None => NaN
  end.

(** What [breakitup] returns. *)
Record variant_fields : Type := mkFields {
  idname : string;
  variantype : string;
  genename : cell;
  aapos : cell;
  genepos : cell
}.

Definition breakitup (variantID : string) : variant_fields :=
  let tokens := split "_" variantID in
  if Nat.ltb 1 (List.length tokens) then
    mkFields (join "_" (firstn 4 tokens))
      (nth 0 tokens EmptyString)
      (token_or_nan tokens 1) (token_or_nan tokens 2) (token_or_nan tokens 3)
  else
    mkFields variantID
      (if String.prefix "rs" variantID then "SNPS" else variantID)
      NaN NaN NaN.

(** ** Trimming to the covariate table *)

(** The position of the first column with a given name. *)
Fixpoint index_of (name : string) (l : list string) : option nat :=
  match l with
  | [] => None
  | x :: l' =>
      if String.eqb x name then Some 0
      else match index_of name l' with
           | Some j => Some (S j)
           | None => None
           end
  end.

(** [df[newix]] on a frame with pairwise distinct column names: the named
    columns in the order asked for, [KeyError] on a name that is not a
    column. *)
Definition select_columns (newix : list string) (df : block) : result block :=
  positions <- for_each (fun name =>
                           match index_of name (samples df) with
                           | Some j => ret j
                           | None => raise (KeyError name)
                           end) newix ;;
  ret (mkBlock newix
         (map (fun r => (fst r, map (fun j => nth j (snd r) EmptyString) positions))
            (rows df))).

(** The list [newix] that [subsectionFam] builds from the index of the
    covariate table. *)
Definition subsectionFam_index (fam_index : list string) (datatype : string)
  : list string :=
  if String.eqb datatype "softcall" then fam_index
  else if String.eqb datatype "hardcall"
       then flat_map (fun x => [x; (x ++ ".1")%string]) fam_index
       else [].

Definition subsectionFam (dataframe : block) (fam_index : list string)
  (datatype : string) : result block :=
  select_columns (subsectionFam_index fam_index datatype) dataframe.


(** Ascending order of row labels, as [sort_index] leaves them. *)
Definition ascending (l : list string) : Prop :=
  Sorted (fun a b => String.leb a b = true) l.

(** ** Tables of the data container and the input of the orchestrators *)








Definition variant_info_rows (x : string) (info : list variant_info)
  : list variant_info :=
  filter (fun i => String.eqb (info_AA_ID i) x) info.

(** The call of a data row under the column called [name]. *)
Definition cell_at (df : block) (r : string * list string) (name : string) : string :=
  match index_of name (samples df) with
  | Some j => nth j (snd r) EmptyString
  | None => EmptyString
  end.


(** The entries of row [k] of a count frame, added up. *)
Definition row_sum (df : frame) (k : nat) : nat :=
  list_sum (map (fun col => nth k (snd col) 0) (columns df)).



(** The row of [analyseSNP] for a variant fitted on its own: the
    univariate fit of its own matrix, with the bounds of that fit. *)
Definition snp_row_of (round3 : float -> float)
  (glm_binomial ols : string -> abt frame -> fitted)
  (fam_ : fam) (modeltype : string) (snpinfo : variant_info) (h : haplo_out frame)
  : snp_row :=
  let nu_snpdf := rename_columns (String.append "snp_") (haplodf h) in
  let '(uni_p, coef, conf_int1, conf_int2) :=
    linear_model glm_binomial ols round3 (mkAbt nu_snpdf fam_) modeltype in
  mkSNPRow (info_AA_ID snpinfo) (info_POS snpinfo) uni_p coef conf_int1 conf_int2.

(** ** Haplotype matrix builder (soft calls) *)

(** The dosage rows of one [AA_ID], without the [AA_ID] column: one row per
    variant id, one dosage per sample. *)
Record dosage_block : Type := mkDosageBlock {
  dosage_samples : list string;
  dosage_rows : list (string * list float)
}.

(** A sample-by-residue dosage frame. *)
Record dosage_frame : Type := mkDosageFrame {
  dosage_index : list string;
  dosage_columns : list (string * list float)
}.

#[global] Instance dosage_frame_Table : Table dosage_frame :=
  fun df => map fst (dosage_columns df).

(** [str.replace(old, new)] for a one-character [old]. *)
Fixpoint replace_char (old : ascii) (new : string) (s : string) : string :=
  match s with
  | EmptyString => EmptyString
  | String c s' =>
      if Ascii.eqb c old then (new ++ replace_char old new s')%string
      else String c (replace_char old new s')
  end.

(** ["AA_"+cname.replace(".", "dot").replace("*", "asterisk")] *)
Definition soft_column_name (cname : string) : string :=
  ("AA_" ++ replace_char "*" "asterisk" (replace_char "." "dot" cname))%string.

(** The values of one residue row, put in the order of the sorted sample
    index ([df.T.sort_index()]). *)
Definition sort_by_sample (samples_ : list string) (values : list float) : list float :=
  map snd (stable_sort (fun a b : string * float => String.leb (fst a) (fst b))
             (combine samples_ values)).

Definition float_of_nat (n : nat) : float :=
  PrimFloat.of_uint63 (Uint63.of_Z (Z.of_nat n)).

(** The float literal [0.01]. *)
Definition one_hundredth : float := 0x1.47ae147ae147bp-7%float.

Section SoftCalls.

(** [Series.sum()] of a column of dosages, and [np.argmax] of the series of
    column sums (a position of that series). *)
Variable series_sum : list float -> float.
Variable np_argmax : list float -> nat.

(** The residue letters of one [AA_ID] are taken to be pairwise distinct,
    as the variant ids are: [df[highfreq.index]] then selects every passing
    column once. The two [sort_index()] calls order the rows by sample. *)
Definition makehaploprob (aa_df : dosage_block) (basicQC : bool) : dosage_frame :=
  let labelled := map (fun r => (split_last "_" (fst r), snd r)) (dosage_rows aa_df) in
  let kept := filter (fun r => Nat.eqb (String.length (fst r)) 1) labelled in
  let idx := stable_sort String.leb (dosage_samples aa_df) in
  let cols := map (fun r => (fst r, sort_by_sample (dosage_samples aa_df) (snd r))) kept in
  let cols :=
    if basicQC
    then filter (fun col => PrimFloat.ltb one_hundredth
                              (series_sum (snd col) / float_of_nat (List.length idx * 2)))
           cols
    else cols in
  mkDosageFrame idx cols.

(** [infodf] is read for its [alleleA] and [alleleB] columns only; it has
    one row per row of [aadf]. *)
Definition obt_haplo_soft (aadf : dosage_block) (infodf : list (string * string))
  : result (haplo_out dosage_frame) :=
  if Nat.ltb 1 (List.length (dosage_rows aadf)) then
    let haplodf := makehaploprob aadf true in
    let aalist := map fst (dosage_columns haplodf) in
    let AAcount := List.length aalist in
    match dosage_columns haplodf with
    | [] => raise (ValueError "attempt to get argmax of an empty sequence")
    | _ =>
        let refix := np_argmax (map (fun col => series_sum (snd col))
                                  (dosage_columns haplodf)) in
        let refAA := nth refix aalist EmptyString in
        let haplodf :=
          mkDosageFrame (dosage_index haplodf)
            (filter (fun col => negb (String.eqb (fst col) refAA))
               (dosage_columns haplodf)) in
        let haplocount := List.length (dosage_columns haplodf) in
        let haplodf :=
          mkDosageFrame (dosage_index haplodf)
            (map (fun col => (soft_column_name (fst col), snd col))
               (dosage_columns haplodf)) in
        ret (mkHaploOut haplodf AAcount (Single refAA) (map Single aalist) haplocount)
    end
  else
    match dosage_rows aadf with
    | [row] =>
        let haplodf :=
          mkDosageFrame (dosage_samples aadf) [("solo_amino_acid", snd row)] in
        let suffix := split_last "_" (fst row) in
        let '(refAA, aalist) :=
          if Nat.eqb (String.length suffix) 1
          then (suffix, [suffix; "missing"])
          else (fst (hd (EmptyString, EmptyString) infodf),
                [fst (hd (EmptyString, EmptyString) infodf);
                 snd (hd (EmptyString, EmptyString) infodf)]) in
        ret (mkHaploOut haplodf 2 (Single refAA) (map Single aalist) 1)
    | _ => raise (ValueError "Length mismatch")
    end.

End SoftCalls.

(** ** The amino-acid table of the data container ([hapy/data/HLAdat.py]) *)

(** [notna] of a cell. *)
Definition notna (c : cell) : bool :=
  match c with
  | CFloat x => negb (PrimFloat.is_nan x)
  | _ => true
  end.

Definition same_AA_ID (aa_id : string) (id : string) : bool :=
  String.eqb (idname (breakitup id)) aa_id.

(** [info.groupby("AA_ID").count()["POS"]] for one [AA_ID]: its rows with a
    position. *)
Definition pos_count (aa_id : string) (ids : list string) : nat :=
  List.length (filter (fun id => (same_AA_ID aa_id id
                                  && notna (genepos (breakitup id)))%bool) ids).

(** The rows [HLAdata.add_data] keeps for the ["AA"] table: those whose
    [AA_ID] counts more than one position. The rows are given by their
    variant ids, the info columns being the fields of [breakitup]. *)
Definition add_data_AA (ids : list string) : list string :=
  filter (fun id => Nat.ltb 1 (pos_count (idname (breakitup id)) ids)) ids.

(** A stand-in for a fitted model, the same whatever the formula and the
    table, to run the orchestration on the worked inputs. *)
Definition example_fit (formula : string) (a : abt frame) : fitted :=
  mkFitted 0%float 1%float 0%float 1%float 1%float []
    (fun _ => 0%float) (fun _ => 1%float) (fun _ => (0%float, 0%float)).

(** * Properties

    ** Stable sorting *)

Unset Implicit Arguments.

Section StableSortFacts.
Variable A : Type.
Variable before : A -> A -> bool.

Lemma insert_sorted_perm x l : Permutation (x :: l) (insert_sorted before x l).
Proof.
  induction l as [|y l IH]; simpl; [constructor; constructor|].
  destruct (before x y); [apply Permutation_refl|].
  eapply perm_trans; [apply perm_swap|]. now constructor.
Qed.

Lemma stable_sort_perm l : Permutation l (stable_sort before l).
Proof.
  induction l as [|x l IH]; simpl; [constructor|].
  eapply perm_trans; [|apply insert_sorted_perm]. now constructor.
Qed.

Lemma stable_sort_In l x : In x (stable_sort before l) <-> In x l.
Proof.
  split; intro H.
  - eapply Permutation_in; [apply Permutation_sym, stable_sort_perm|exact H].
  - eapply Permutation_in; [apply stable_sort_perm|exact H].
Qed.

Lemma stable_sort_length l : List.length (stable_sort before l) = List.length l.
Proof. symmetry. apply Permutation_length, stable_sort_perm. Qed.

Lemma stable_sort_NoDup l : NoDup l -> NoDup (stable_sort before l).
Proof. intro H. eapply Permutation_NoDup; [apply stable_sort_perm|exact H]. Qed.

(** Orders of the form "the key of [x] is at least the key of [y]" leave
    the output with non-increasing keys. *)
Variable key : A -> nat.
Hypothesis before_key : forall x y, before x y = Nat.leb (key y) (key x).

Lemma insert_sorted_desc x l :
  StronglySorted (key_desc key) l -> StronglySorted (key_desc key) (insert_sorted before x l).
Proof.
  induction 1 as [|y l Hs IH Hall]; simpl.
  - constructor; constructor.
  - rewrite before_key. destruct (Nat.leb (key y) (key x)) eqn:E.
    + apply Nat.leb_le in E. constructor.
      * now constructor.
      * constructor; [exact E|].
        eapply Forall_impl; [|exact Hall]. unfold key_desc. intros; lia.
    + apply Nat.leb_gt in E. constructor; [exact IH|].
      eapply Permutation_Forall; [apply insert_sorted_perm|].
      constructor; [unfold key_desc; lia|exact Hall].
Qed.

Lemma stable_sort_desc l : StronglySorted (key_desc key) (stable_sort before l).
Proof.
  induction l; simpl; [constructor|]. now apply insert_sorted_desc.
Qed.
End StableSortFacts.

(** ** Counting letters *)

Lemma counter_add_keys c m k :
  In k (map fst (counter_add c m)) <-> k = c \/ In k (map fst m).
Proof.
  induction m as [|[k' n] m IH]; simpl.
  - intuition congruence.
  - destruct (Ascii.eqb k' c) eqn:E; simpl.
    + apply Ascii.eqb_eq in E. subst. intuition.
    + rewrite IH. intuition.
Qed.

Lemma counter_add_NoDup c m :
  NoDup (map fst m) -> NoDup (map fst (counter_add c m)).
Proof.
  induction m as [|[k' n] m IH]; simpl; intro Hnd.
  - repeat constructor. intros [].
  - destruct (Ascii.eqb k' c) eqn:E; simpl; [exact Hnd|].
    inversion Hnd as [|? ? Hnotin Hnd']; subst. constructor; [|now apply IH].
    rewrite counter_add_keys. intros [->|Hin]; [|contradiction].
    rewrite Ascii.eqb_refl in E. discriminate.
Qed.

Lemma counter_add_get c m k :
  counter_get (counter_add c m) k
  = counter_get m k + (if Ascii.eqb c k then 1 else 0).
Proof.
  induction m as [|[k' n] m IH]; simpl.
  - destruct (Ascii.eqb c k); reflexivity.
  - destruct (Ascii.eqb k' c) eqn:E; simpl.
    + apply Ascii.eqb_eq in E. subst k'.
      destruct (Ascii.eqb c k); lia.
    + destruct (Ascii.eqb k' k) eqn:E'; [|exact IH].
      apply Ascii.eqb_eq in E'. subst k'. rewrite Ascii.eqb_sym, E. lia.
Qed.

Lemma counter_get_In m k n :
  NoDup (map fst m) -> In (k, n) m -> counter_get m k = n.
Proof.
  induction m as [|[k' n'] m IH]; simpl; intros Hnd Hin; [contradiction|].
  inversion Hnd as [|? ? Hnotin Hnd']; subst.
  destruct Hin as [Heq|Hin].
  - inversion Heq; subst. now rewrite Ascii.eqb_refl.
  - destruct (Ascii.eqb k' k) eqn:E; [|now apply IH].
    apply Ascii.eqb_eq in E. subst k'.
    exfalso. apply Hnotin. now apply (in_map fst) in Hin.
Qed.

Lemma counter_In_get m k :
  In k (map fst m) -> In (k, counter_get m k) m.
Proof.
  induction m as [|[k' n'] m IH]; simpl; intro Hin; [contradiction|].
  destruct (Ascii.eqb k' k) eqn:E.
  - apply Ascii.eqb_eq in E. subst. now left.
  - destruct Hin as [->|Hin]; [rewrite Ascii.eqb_refl in E; discriminate|].
    right. now apply IH.
Qed.

Lemma Counter_fold l : forall m,
  NoDup (map fst m) ->
  let m' := fold_left (fun m c => counter_add c m) l m in
  NoDup (map fst m')
  /\ (forall k, In k (map fst m') <-> In k (map fst m) \/ In k l)
  /\ (forall k, counter_get m' k = counter_get m k + count_occ ascii_dec l k).
Proof.
  induction l as [|c l IH]; simpl; intros m Hnd.
  - repeat split; auto; intuition.
  - destruct (IH (counter_add c m) (counter_add_NoDup c m Hnd)) as (H1 & H2 & H3).
    repeat split; [exact H1| | |].
    + intro Hk. apply H2 in Hk. rewrite counter_add_keys in Hk. intuition.
    + intro Hk. apply H2. rewrite counter_add_keys. intuition.
    + intro k. rewrite H3, counter_add_get.
      destruct (ascii_dec c k) as [->|Hne].
      * rewrite Ascii.eqb_refl. lia.
      * apply Ascii.eqb_neq in Hne. rewrite Hne. lia.
Qed.

(** What the sorted counter of a block holds: every letter of the block
    once, with its number of occurrences, larger counts first. *)
Lemma sorted_counter_spec aablock :
  let s := sorted_by_count (Counter (flatten_block aablock)) in
  NoDup (map fst s)
  /\ (forall k n, In (k, n) s ->
        n = letter_count aablock k /\ In k (flatten_block aablock))
  /\ (forall k, In k (flatten_block aablock) -> In (k, letter_count aablock k) s)
  /\ StronglySorted (key_desc (@snd ascii nat)) s.
Proof.
  intro s. unfold s, sorted_by_count, Counter, letter_count.
  set (flat := flatten_block aablock).
  destruct (Counter_fold flat [] (NoDup_nil _)) as (H1 & H2 & H3).
  set (m := fold_left (fun m c => counter_add c m) flat []) in *.
  assert (Hperm : Permutation m (stable_sort count_before m))
    by apply stable_sort_perm.
  repeat split.
  - eapply Permutation_NoDup; [apply Permutation_map, Hperm|exact H1].
  - apply stable_sort_In in H. rewrite <- (counter_get_In _ _ _ H1 H).
    rewrite H3. reflexivity.
  - apply stable_sort_In in H. apply (in_map fst) in H. apply H2 in H.
    simpl in H. intuition.
  - intros k Hk. apply stable_sort_In.
    assert (Hin : In k (map fst m)) by (apply H2; now right).
    apply counter_In_get in Hin. rewrite H3 in Hin. exact Hin.
  - apply stable_sort_desc. intros x y. reflexivity.
Qed.

(** ** The resolver, case by case *)

Lemma desc_head_max (x : ascii * nat) l y :
  StronglySorted (key_desc (@snd ascii nat)) (x :: l) -> In y (x :: l) -> snd y <= snd x.
Proof.
  intros Hs [<-|Hin]; [lia|].
  apply StronglySorted_inv in Hs. destruct Hs as [_ Hall].
  rewrite Forall_forall in Hall. exact (Hall y Hin).
Qed.

(** One letter above all others, and at least one other letter: the letter
    is returned. *)
Lemma checkAAblock_majority aablock c :
  (exists c', c' <> c /\ In c' (flatten_block aablock)) ->
  (forall c', c' <> c -> letter_count aablock c' < letter_count aablock c) ->
  checkAAblock aablock = Single (str1 c).
Proof.
  intros (c' & Hne & Hc') Hmaj.
  destruct (sorted_counter_spec aablock) as (Hnd & Hsound & Hcompl & Hsorted).
  unfold checkAAblock.
  set (s := sorted_by_count (Counter (flatten_block aablock))) in *.
  assert (Hc : In c (flatten_block aablock)).
  { apply (count_occ_In ascii_dec). specialize (Hmaj c' Hne).
    unfold letter_count in Hmaj. lia. }
  pose proof (Hcompl c Hc) as Hcs. pose proof (Hcompl c' Hc') as Hcs'.
  destruct s as [|[k0 n0] [|[k1 n1] rest]].
  - contradiction.
  - destruct Hcs as [E|[]], Hcs' as [E'|[]]. congruence.
  - assert (Hk0 : k0 = c).
    { destruct (ascii_dec k0 c) as [|Hk]; [assumption|exfalso].
      pose proof (desc_head_max _ _ _ Hsorted Hcs) as Hle. simpl in Hle.
      destruct (Hsound k0 n0 (or_introl eq_refl)) as [-> _].
      specialize (Hmaj k0 Hk). lia. }
    subst k0.
    destruct (Hsound c n0 (or_introl eq_refl)) as [-> _].
    destruct (Hsound k1 n1 (or_intror (or_introl eq_refl))) as [-> _].
    assert (Hk1 : k1 <> c).
    { intros ->. simpl in Hnd. inversion Hnd as [|? ? Hnotin _]; subst.
      apply Hnotin. now left. }
    specialize (Hmaj k1 Hk1).
    destruct (Nat.eqb_spec (letter_count aablock c) (letter_count aablock k1));
      [lia|reflexivity].
Qed.

(** Two letters share the largest count: the block comes back untouched. *)
Lemma checkAAblock_tie aablock c1 c2 :
  c1 <> c2 ->
  In c1 (flatten_block aablock) ->
  letter_count aablock c1 = letter_count aablock c2 ->
  (forall c, letter_count aablock c <= letter_count aablock c1) ->
  checkAAblock aablock = AsBlock aablock.
Proof.
  intros Hne Hc1 Heq Hmax.
  destruct (sorted_counter_spec aablock) as (Hnd & Hsound & Hcompl & Hsorted).
  unfold checkAAblock.
  set (s := sorted_by_count (Counter (flatten_block aablock))) in *.
  assert (Hc2 : In c2 (flatten_block aablock)).
  { apply (count_occ_In ascii_dec). apply (count_occ_In ascii_dec) in Hc1.
    unfold letter_count in Heq. lia. }
  pose proof (Hcompl c1 Hc1) as Hs1. pose proof (Hcompl c2 Hc2) as Hs2.
  destruct s as [|[k0 n0] [|[k1 n1] rest]].
  - contradiction.
  - destruct Hs1 as [E|[]], Hs2 as [E'|[]]. congruence.
  - pose proof (desc_head_max _ _ _ Hsorted Hs1) as Hle0. simpl in Hle0.
    destruct (Hsound k0 n0 (or_introl eq_refl)) as [-> _].
    destruct (Hsound k1 n1 (or_intror (or_introl eq_refl))) as [-> _].
    assert (Hk : k0 <> k1).
    { intros ->. simpl in Hnd. inversion Hnd as [|? ? Hnotin _]; subst.
      apply Hnotin. now left. }
    apply StronglySorted_inv in Hsorted. destruct Hsorted as [Hsorted' _].
    assert (Htail : exists d, In (d, letter_count aablock d) ((k1, letter_count aablock k1) :: rest)
                              /\ letter_count aablock d = letter_count aablock c1).
    { destruct (ascii_dec k0 c1) as [->|Hk0].
      - exists c2. split; [|now symmetry].
        destruct Hs2 as [E|Hin]; [congruence|exact Hin].
      - exists c1. split; [|reflexivity].
        destruct Hs1 as [E|Hin]; [congruence|exact Hin]. }
    destruct Htail as (d & Hd & Hdc).
    pose proof (desc_head_max _ _ _ Hsorted' Hd) as Hle1. simpl in Hle1.
    pose proof (Hmax k0). pose proof (Hmax k1).
    replace (letter_count aablock k0) with (letter_count aablock k1) by lia.
    now rewrite Nat.eqb_refl.
Qed.

(** One letter only: the first code of the block comes back, a string. *)
Lemma checkAAblock_one_letter aablock c :
  In c (flatten_block aablock) ->
  (forall c', In c' (flatten_block aablock) -> c' = c) ->
  checkAAblock aablock = Single (hd EmptyString aablock).
Proof.
  intros Hc Hall.
  destruct (sorted_counter_spec aablock) as (Hnd & Hsound & Hcompl & _).
  unfold checkAAblock.
  set (s := sorted_by_count (Counter (flatten_block aablock))) in *.
  pose proof (Hcompl c Hc) as Hs.
  destruct s as [|[k0 n0] [|[k1 n1] rest]]; [contradiction|reflexivity|exfalso].
  destruct (Hsound k0 n0 (or_introl eq_refl)) as [_ H0].
  destruct (Hsound k1 n1 (or_intror (or_introl eq_refl))) as [_ H1].
  apply Hall in H0, H1. subst. simpl in Hnd.
  inversion Hnd as [|? ? Hnotin _]; subst. apply Hnotin. now left.
Qed.

(** The default of [hd] in [checkAAblock] is never reached: a block with a
    letter in it has a first code. *)
Lemma one_letter_nonempty aablock c :
  In c (flatten_block aablock) -> aablock <> [].
Proof. intros Hc ->. exact Hc. Qed.

(** C3, as the resolver behaves. With at least two distinct letters, a
    letter whose count exceeds every other letter's is returned, and a tie
    for the largest count returns the block unchanged. With a single
    distinct letter the result is [aablock[0]], the first code of the block
    as one string (for one-character codes that is the letter itself), not
    the block. An empty block gives the empty string. *)
Theorem checkAAblock_cases (aablock : list string) :
  (forall c,
      (exists c', c' <> c /\ In c' (flatten_block aablock)) ->
      (forall c', c' <> c -> letter_count aablock c' < letter_count aablock c) ->
      checkAAblock aablock = Single (str1 c))
  /\ (forall c1 c2,
        c1 <> c2 -> In c1 (flatten_block aablock) ->
        letter_count aablock c1 = letter_count aablock c2 ->
        (forall c, letter_count aablock c <= letter_count aablock c1) ->
        checkAAblock aablock = AsBlock aablock)
  /\ (forall c,
        In c (flatten_block aablock) ->
        (forall c', In c' (flatten_block aablock) -> c' = c) ->
        aablock <> []
        /\ checkAAblock aablock = Single (hd EmptyString aablock)
        /\ (Forall (fun code => String.length code = 1) aablock ->
            checkAAblock aablock = Single (str1 c)))
  /\ (aablock = [] -> checkAAblock aablock = Single EmptyString).
Proof.
  split; [|split; [|split]].
  - intros c. apply checkAAblock_majority.
  - intros c1 c2. apply checkAAblock_tie.
  - intros c Hc Hall. split; [exact (one_letter_nonempty aablock c Hc)|].
    split; [exact (checkAAblock_one_letter aablock c Hc Hall)|].
    intro Hlen. rewrite (checkAAblock_one_letter aablock c Hc Hall).
    destruct aablock as [|code rest]; [contradiction|]. simpl.
    inversion Hlen as [|? ? Hcode _]; subst.
    destruct code as [|a [|b code']]; simpl in Hcode; try discriminate.
    f_equal. unfold str1. f_equal. apply Hall. simpl. now left.
  - intros ->. reflexivity.
Qed.

(** C3, an instance: ["F"; "Y"; "F"] resolves to ["F"]. *)
Lemma checkAAblock_cases_witness :
  checkAAblock ["F"; "Y"; "F"] = Single "F".
Proof.
  apply (proj1 (checkAAblock_cases ["F"; "Y"; "F"]) "F"%char).
  - exists "Y"%char. split; [discriminate|]. simpl. auto.
  - intros c' Hne.
    assert (HF : letter_count ["F"; "Y"; "F"] "F" = 2) by reflexivity.
    rewrite HF. unfold letter_count.
    cbn [flatten_block List.concat List.map list_ascii_of_string app count_occ].
    destruct (ascii_dec "F" c') as [E|_]; [congruence|].
    destruct (ascii_dec "Y" c'); lia.
Defined.

(** C3, where the claim as worded fails: the block ["F"; "F"] holds one
    distinct letter and comes back as the string ["F"], not as the block. *)
Lemma checkAAblock_one_letter_not_block :
  checkAAblock ["F"; "F"] = Single "F"
  /\ checkAAblock ["F"; "F"] <> AsBlock ["F"; "F"].
Proof. split; [reflexivity|discriminate]. Qed.

(** ** The count matrix *)

Lemma map_nth_seq_from {A B : Type} (f : A -> B) (d : A) (l : list A) :
  map (fun j => f (nth j l d)) (seq 0 (List.length l)) = map f l.
Proof.
  induction l as [|x l IH]; [reflexivity|].
  simpl. f_equal. rewrite <- seq_shift, map_map. exact IH.
Qed.

Lemma copy_keys_fst b : map fst (copy_keys b) = base_ids b.
Proof.
  unfold copy_keys, base_ids. rewrite map_map. simpl.
  apply (map_nth_seq_from (split_first ".")).
Qed.

Lemma copy_keys_length b : List.length (copy_keys b) = List.length (samples b).
Proof. unfold copy_keys. now rewrite length_map, length_seq. Qed.

Lemma sorted_unique_In l x : In x (sorted_unique l) <-> In x l.
Proof.
  unfold sorted_unique. rewrite stable_sort_In. apply nodup_In.
Qed.

Lemma sorted_unique_NoDup l : NoDup (sorted_unique l).
Proof. apply stable_sort_NoDup, NoDup_nodup. Qed.

Lemma sorted_unique_length l :
  List.length (sorted_unique l) = List.length (nodup string_dec l).
Proof. apply stable_sort_length. Qed.

Lemma list_sum_map_add {A : Type} (f g : A -> nat) l :
  list_sum (map (fun x => f x + g x) l) = list_sum (map f l) + list_sum (map g l).
Proof. induction l as [|x l IH]; simpl; lia. Qed.

Lemma list_sum_map_zero {A : Type} (l : list A) :
  list_sum (map (fun _ => 0) l) = 0.
Proof. induction l; simpl; auto. Qed.

Lemma indicator_sum (a : string) l :
  NoDup l -> In a l ->
  list_sum (map (fun x => if String.eqb x a then 1 else 0) l) = 1.
Proof.
  induction l as [|y l IH]; simpl; intros Hnd Hin; [contradiction|].
  inversion Hnd as [|? ? Hnotin Hnd']; subst.
  destruct (String.eqb_spec y a) as [->|Hne].
  - assert (Hz : list_sum (map (fun x => if String.eqb x a then 1 else 0) l) = 0).
    { clear -Hnotin. induction l as [|z l IH]; [reflexivity|]. simpl.
      destruct (String.eqb_spec z a) as [->|_].
      - exfalso. apply Hnotin. now left.
      - apply IH. intro H. apply Hnotin. now right. }
    lia.
  - destruct Hin as [Heq|Hin]; [contradiction|]. rewrite (IH Hnd' Hin). lia.
Qed.

Lemma group_size_cons k keys r c :
  group_size (k :: keys) r c
  = (if pair_eqb (r, c) k then 1 else 0) + group_size keys r c.
Proof.
  unfold group_size. simpl. destruct (pair_eqb (r, c) k); reflexivity.
Qed.

(** Every sample copy falls in exactly one cell of the matrix. *)
Lemma group_size_total keys idx labels :
  NoDup idx -> NoDup labels ->
  (forall k, In k keys -> In (fst k) idx /\ In (snd k) labels) ->
  list_sum (map (fun c => list_sum (map (fun r => group_size keys r c) idx)) labels)
  = List.length keys.
Proof.
  intros Hidx Hlab. induction keys as [|k keys IH]; intro Hin.
  - simpl. unfold group_size. simpl.
    erewrite map_ext; [apply list_sum_map_zero|].
    intro c. simpl. apply list_sum_map_zero.
  - erewrite map_ext.
    2:{ intro c. erewrite map_ext; [|intro r; apply group_size_cons].
        apply list_sum_map_add. }
    rewrite list_sum_map_add, IH by (intros k' Hk'; apply Hin; now right).
    destruct (Hin k (or_introl eq_refl)) as [Hr Hc].
    erewrite map_ext.
    2:{ intro c. instantiate (1 := fun c => if String.eqb c (snd k) then 1 else 0).
        simpl. unfold pair_eqb. simpl.
        destruct (String.eqb c (snd k)).
        - erewrite map_ext; [apply (indicator_sum (fst k) idx Hidx Hr)|].
          intro r. simpl. now rewrite andb_true_r.
        - erewrite map_ext; [apply list_sum_map_zero|].
          intro r. simpl. now rewrite andb_false_r. }
    rewrite (indicator_sum (snd k) labels Hlab Hc). reflexivity.
Qed.

Lemma count_matrix_total b :
  list_sum (column_totals (count_matrix b)) = List.length (samples b).
Proof.
  unfold column_totals, count_matrix, column_total. simpl.
  rewrite map_map. simpl.
  rewrite group_size_total.
  - apply copy_keys_length.
  - apply sorted_unique_NoDup.
  - apply sorted_unique_NoDup.
  - intros k Hk. split; apply sorted_unique_In; now apply in_map.
Qed.

Lemma count_matrix_nrows b : nrows (count_matrix b) = base_samples b.
Proof.
  unfold nrows, count_matrix, base_samples. simpl.
  now rewrite sorted_unique_length, copy_keys_fst.
Qed.

Lemma count_matrix_names b :
  column_names (count_matrix b) = sorted_unique (map snd (copy_keys b)).
Proof.
  unfold column_names, count_matrix. simpl. rewrite map_map. simpl.
  apply map_id.
Qed.

(** The length of a list, counted group by group. *)
Lemma count_occ_total (l u : list string) :
  NoDup u -> (forall x, In x l -> In x u) ->
  list_sum (map (count_occ string_dec l) u) = List.length l.
Proof.
  intros Hu. induction l as [|a l IH]; intro Hin.
  - simpl. apply list_sum_map_zero.
  - erewrite map_ext.
    2:{ intro r. instantiate (1 := fun r => (if String.eqb r a then 1 else 0)
                                            + count_occ string_dec l r).
        simpl. destruct (string_dec a r) as [->|Hne].
        - now rewrite String.eqb_refl.
        - destruct (String.eqb_spec r a); [congruence|reflexivity]. }
    rewrite list_sum_map_add, IH by (intros x Hx; apply Hin; now right).
    rewrite (indicator_sum a u Hu) by (apply Hin; now left). reflexivity.
Qed.

Lemma diploid_length b :
  diploid b -> List.length (samples b) = 2 * base_samples b.
Proof.
  intro Hd. unfold base_samples.
  replace (List.length (samples b)) with (List.length (base_ids b))
    by (unfold base_ids; apply length_map).
  rewrite <- (count_occ_total (base_ids b) (nodup string_dec (base_ids b))).
  - erewrite map_ext_in.
    2:{ intros r Hr. apply nodup_In in Hr. apply (Hd r Hr). }
    generalize (nodup string_dec (base_ids b)).
    intro u. induction u; simpl; lia.
  - apply NoDup_nodup.
  - intros x Hx. now apply nodup_In.
Qed.

Lemma string_length_append (s1 s2 : string) :
  String.length (s1 ++ s2) = String.length s1 + String.length s2.
Proof. induction s1 as [|c s1 IH]; simpl; [reflexivity|]. now rewrite IH. Qed.

(** On a well-formed block a haplotype label has one character per row, so
    the presence positions of a label always index the list of residues. *)
Lemma haplo_label_length b j :
  wf_block b -> j < List.length (samples b) ->
  String.length (haplo_label b j) = List.length (rows b).
Proof.
  unfold wf_block, haplo_label. intros Hwf Hj.
  induction (rows b) as [|r rs IH]; [reflexivity|].
  inversion Hwf as [|? ? [Hlen Hcalls] Hwf']; subst. simpl.
  rewrite string_length_append, (IH Hwf').
  rewrite Forall_forall in Hcalls.
  rewrite (Hcalls (nth j (snd r) EmptyString)) by (apply nth_In; lia).
  reflexivity.
Qed.

(** ** The frequency floor *)

Lemma haplo_freq_normalized total n :
  (haplo_freq total n == normalized_mass total n)%Q.
Proof.
  unfold haplo_freq, normalized_mass, Qdiv.
  rewrite Qinv_mult_distr. ring.
Qed.

Lemma highfreq_iff total n :
  highfreq total n = true <-> (1 # 100 < normalized_mass total n)%Q.
Proof.
  unfold highfreq. rewrite <- haplo_freq_normalized.
  rewrite negb_true_iff. split.
  - intro Hf. apply Qnot_le_lt. intro Hle.
    apply Qle_bool_iff in Hle. congruence.
  - intro Hlt. destruct (Qle_bool (haplo_freq total n) (1 # 100)) eqn:E;
      [|reflexivity].
    apply Qle_bool_iff in E. exfalso. exact (Qlt_not_le _ _ Hlt E).
Qed.

(** C4. With [basicQC] on, [makehaplodf] keeps the row labels and exactly
    those label columns of the count matrix whose total, divided by
    (2 x number of base samples), is strictly above one hundredth, in their
    original order; a column at or below one hundredth is dropped. The
    ratio is taken over the rationals. *)
Theorem makehaplodf_frequency_floor (aa_df : block) :
  let unfiltered := fst (makehaplodf aa_df false) in
  let df := fst (makehaplodf aa_df true) in
  nrows unfiltered = base_samples aa_df
  /\ index df = index unfiltered
  /\ columns df
     = filter (fun col => highfreq (column_total col) (base_samples aa_df))
         (columns unfiltered)
  /\ (forall col,
        In col (columns df) <->
        In col (columns unfiltered)
        /\ (1 # 100 < normalized_mass (column_total col) (base_samples aa_df))%Q)
  /\ (forall col,
        In col (columns unfiltered) ->
        (normalized_mass (column_total col) (base_samples aa_df) <= 1 # 100)%Q ->
        ~ In col (columns df)).
Proof.
  cbn zeta. unfold makehaplodf. cbn [fst]. unfold frequency_floor. cbn [index columns].
  rewrite count_matrix_nrows.
  split; [reflexivity|]. split; [reflexivity|]. split; [reflexivity|].
  split.
  - intro col. rewrite filter_In, highfreq_iff. reflexivity.
  - intros col _ Hle Hin. apply filter_In in Hin. destruct Hin as [_ Hin].
    apply highfreq_iff in Hin. exact (Qlt_not_le _ _ Hin Hle).
Qed.

(** ** Mass conservation without the floor *)

Lemma Qsum_normalized (totals : list nat) n :
  (Qsum (map (fun t => normalized_mass t n) totals)
   == normalized_mass (list_sum totals) n)%Q.
Proof.
  induction totals as [|t totals IH].
  - simpl. unfold normalized_mass, Qdiv. simpl. ring.
  - simpl. rewrite IH. unfold normalized_mass, Qdiv.
    rewrite Nat2Z.inj_add, inject_Z_plus. ring.
Qed.

Lemma normalized_mass_full n :
  0 < n -> (normalized_mass (2 * n) n == 1)%Q.
Proof.
  intro Hn. unfold normalized_mass.
  rewrite Nat2Z.inj_mul, inject_Z_mult. simpl (Z.of_nat 2).
  change (inject_Z 2) with 2%Q.
  apply Qmult_inv_r.
  intro H0. assert (Hq : (inject_Z (Z.of_nat n) == 0)%Q).
  { destruct (Qmult_integral _ _ H0) as [H2|H2]; [discriminate H2|exact H2]. }
  unfold Qeq in Hq. simpl in Hq. lia.
Qed.

(** C5. On a block in which every base sample has exactly two copy
    columns, [makehaplodf] without the floor returns a matrix with one row
    per base sample in which every sample copy is counted under exactly one
    label column; the entries add up to 2 x (number of base samples), and,
    when there is at least one sample, the column totals divided by
    (2 x row count) add up to exactly 1. *)
Theorem makehaplodf_mass_conserved (aa_df : block) :
  diploid aa_df ->
  let df := fst (makehaplodf aa_df false) in
  nrows df = base_samples aa_df
  /\ (forall k, In k (copy_keys aa_df) ->
        count_occ string_dec (column_names df) (snd k) = 1)
  /\ list_sum (column_totals df) = 2 * base_samples aa_df
  /\ (samples aa_df <> [] ->
      (Qsum (map (fun t => normalized_mass t (nrows df)) (column_totals df)) == 1)%Q).
Proof.
  intros Hd. cbn zeta. unfold makehaplodf. cbn [fst].
  assert (Htot : list_sum (column_totals (count_matrix aa_df)) = 2 * base_samples aa_df).
  { rewrite count_matrix_total. now apply diploid_length. }
  split; [apply count_matrix_nrows|]. split; [|split; [exact Htot|]].
  - intros k Hk. rewrite count_matrix_names.
    apply NoDup_count_occ'; [apply sorted_unique_NoDup|].
    apply sorted_unique_In. now apply in_map.
  - intro Hne. rewrite Qsum_normalized, Htot, count_matrix_nrows.
    apply normalized_mass_full.
    pose proof (diploid_length aa_df Hd) as Hlen.
    destruct (samples aa_df); [contradiction|]. simpl in Hlen. lia.
Qed.

Lemma example_multi_diploid : diploid example_multi.
Proof.
  intros r Hr. simpl in Hr.
  destruct Hr as [<-|[<-|[<-|[<-|[]]]]]; reflexivity.
Qed.

(** C5, an instance: the two-sample block [example_multi]. *)
Lemma makehaplodf_mass_conserved_witness :
  list_sum (column_totals (fst (makehaplodf example_multi false)))
  = 2 * base_samples example_multi
  /\ (Qsum (map (fun t => normalized_mass t (nrows (fst (makehaplodf example_multi false))))
              (column_totals (fst (makehaplodf example_multi false)))) == 1)%Q.
Proof.
  destruct (makehaplodf_mass_conserved example_multi example_multi_diploid)
    as (_ & _ & Hsum & Hone).
  split; [exact Hsum|]. apply Hone. discriminate.
Defined.

(** ** Reference selection *)

Lemma argmax_from_spec l : forall pre best_i best_v i,
  i = List.length pre -> best_i < i -> nth best_i pre 0 = best_v ->
  (forall x, In x pre -> x <= best_v) ->
  let r := argmax_from best_i best_v i l in
  r < List.length (pre ++ l)
  /\ (forall x, In x (pre ++ l) -> x <= nth r (pre ++ l) 0).
Proof.
  induction l as [|v l IH]; intros pre bi bv i Hi Hbi Hnth Hmax; simpl.
  - rewrite app_nil_r. split; [lia|]. intros x Hx. rewrite Hnth. now apply Hmax.
  - replace (pre ++ v :: l) with ((pre ++ [v]) ++ l)
      by (rewrite <- app_assoc; reflexivity).
    destruct (Nat.ltb_spec bv v) as [Hlt|Hge].
    + apply IH.
      * rewrite length_app. simpl. lia.
      * lia.
      * subst i. rewrite app_nth2, Nat.sub_diag by lia. reflexivity.
      * intros x Hx. apply in_app_or in Hx. destruct Hx as [Hx|[<-|[]]]; [|lia].
        specialize (Hmax x Hx). lia.
    + apply IH.
      * rewrite length_app. simpl. lia.
      * lia.
      * rewrite app_nth1 by lia. exact Hnth.
      * intros x Hx. apply in_app_or in Hx. destruct Hx as [Hx|[<-|[]]]; [|lia].
        now apply Hmax.
Qed.

Lemma argmax_spec l :
  l <> [] ->
  exists r, argmax l = ret r
            /\ r < List.length l
            /\ (forall x, In x l -> x <= nth r l 0).
Proof.
  destruct l as [|v l]; [congruence|]. intros _.
  exists (argmax_from 0 v 1 l). split; [reflexivity|].
  apply (argmax_from_spec l [v] 0 v 1); simpl; auto.
  intros x [<-|[]]. lia.
Qed.

Lemma drop_column_present label df :
  In label (column_names df) ->
  drop_column label df
  = ret (mkFrame (index df)
           (filter (fun col => negb (String.eqb (fst col) label)) (columns df))).
Proof.
  intro Hin. unfold drop_column.
  replace (existsb (String.eqb label) (column_names df)) with true; [reflexivity|].
  symmetry. apply existsb_exists. exists label. split; [exact Hin|apply String.eqb_refl].
Qed.

Lemma drop_column_absent label df :
  ~ In label (column_names df) -> drop_column label df = raise (KeyError label).
Proof.
  intro Hnot. unfold drop_column.
  destruct (existsb (String.eqb label) (column_names df)) eqn:E; [|reflexivity].
  apply existsb_exists in E. destruct E as (x & Hx & Heq).
  apply String.eqb_eq in Heq. subst. contradiction.
Qed.

(** Dropping the most frequent column: [np.argmax] of the column totals
    names a column of the frame whose total no other column exceeds. *)
Lemma reference_column df :
  columns df <> [] ->
  exists refix refcolumn,
    argmax (column_totals df) = ret refix
    /\ nth refix (column_names df) EmptyString = fst refcolumn
    /\ In refcolumn (columns df)
    /\ (forall col, In col (columns df) -> column_total col <= column_total refcolumn).
Proof.
  intro Hne.
  destruct (argmax_spec (column_totals df)) as (r & Hr & Hlt & Hmax).
  { unfold column_totals. destruct (columns df); [congruence|discriminate]. }
  unfold column_totals in Hlt. rewrite length_map in Hlt.
  exists r, (nth r (columns df) (EmptyString, [])).
  split; [exact Hr|]. split; [|split].
  - unfold column_names. apply (map_nth fst (columns df) (EmptyString, [])).
  - now apply nth_In.
  - intros col Hcol.
    replace (column_total (nth r (columns df) (EmptyString, [])))
      with (nth r (column_totals df) 0).
    + apply Hmax. unfold column_totals. now apply in_map.
    + unfold column_totals.
      change 0 with (column_total (EmptyString, [])).
      apply map_nth.
Qed.

(** Label columns are pairwise distinct, so dropping a label removes one
    column. *)
Lemma NoDup_map_filter {A B : Type} (f : A -> B) (keep : A -> bool) l :
  NoDup (map f l) -> NoDup (map f (filter keep l)).
Proof.
  induction l as [|x l IH]; simpl; intro Hnd; [constructor|].
  inversion Hnd as [|? ? Hnotin Hnd']; subst.
  destruct (keep x); simpl; [|now apply IH].
  constructor; [|now apply IH].
  intro Hin. apply Hnotin. apply in_map_iff in Hin.
  destruct Hin as (y & Hy & Hin). apply filter_In in Hin.
  rewrite <- Hy. apply in_map. tauto.
Qed.

Lemma makehaplodf_names_NoDup aa_df basicQC :
  NoDup (column_names (fst (makehaplodf aa_df basicQC))).
Proof.
  unfold makehaplodf. cbn [fst].
  assert (Hnd : NoDup (column_names (count_matrix aa_df)))
    by (rewrite count_matrix_names; apply sorted_unique_NoDup).
  destruct basicQC; [|exact Hnd].
  unfold frequency_floor, column_names. cbn [columns].
  now apply NoDup_map_filter.
Qed.

Lemma drop_one_column (cols : list (string * list nat)) label :
  NoDup (map fst cols) -> In label (map fst cols) ->
  List.length (filter (fun col => negb (String.eqb (fst col) label)) cols)
  = List.length cols - 1.
Proof.
  induction cols as [|col cols IH]; simpl; intros Hnd Hin; [contradiction|].
  inversion Hnd as [|? ? Hnotin Hnd']; subst.
  destruct (String.eqb_spec (fst col) label) as [Heq|Hne]; simpl.
  - rewrite Nat.sub_0_r. clear IH Hin Hnd. subst label.
    induction cols as [|c cols IH]; [reflexivity|]. simpl.
    destruct (String.eqb_spec (fst c) (fst col)) as [Heq|_]; simpl.
    + exfalso. apply Hnotin. left. exact Heq.
    + f_equal. apply IH.
      * intro H. apply Hnotin. now right.
      * now inversion Hnd'.
  - destruct Hin as [Heq|Hin]; [contradiction|].
    rewrite (IH Hnd' Hin). destruct cols; [contradiction|]. simpl. lia.
Qed.

(** ** The hard-call branches *)

(** C8. On a block of exactly one row: when more than one label column
    survives the frequency floor, a column with the largest total is dropped
    as reference, its label is the reference allele and [AAcount] is 2,
    however many labels survived; when exactly one label survives, the
    matrix is kept, ["missing"] is appended to the amino-acid list, the
    surviving label is the reference and [AAcount] is 0. *)
Theorem obt_haplo_hard_single_row (aadf : block) :
  List.length (rows aadf) = 1 ->
  let df := fst (makehaplodf aadf true) in
  (1 < ncols df ->
   exists refcolumn dropped,
     In refcolumn (columns df)
     /\ (forall col, In col (columns df) -> column_total col <= column_total refcolumn)
     /\ columns dropped
        = filter (fun col => negb (String.eqb (fst col) (fst refcolumn))) (columns df)
     /\ index dropped = index df
     /\ ncols dropped = ncols df - 1
     /\ obt_haplo_hard aadf
        = ret (mkHaploOut dropped 2 (Single (fst refcolumn))
                 (map Single (column_names df)) (ncols dropped)))
  /\ (forall label_col,
        columns df = [label_col] ->
        obt_haplo_hard aadf
        = ret (mkHaploOut df 0 (Single (fst label_col))
                 [Single (fst label_col); Single "missing"] 1)).
Proof.
  intros Hrows. cbn zeta. unfold obt_haplo_hard. rewrite Hrows.
  change (Nat.ltb 1 1) with false. cbv iota.
  pose proof (makehaplodf_names_NoDup aadf true) as Hnd.
  destruct (makehaplodf aadf true) as [df aas]. cbn [fst] in *.
  assert (Hlen : List.length (column_names df) = ncols df)
    by (unfold column_names, ncols; apply length_map).
  rewrite Hlen. split.
  - intro Hmany. apply Nat.ltb_lt in Hmany. rewrite Hmany.
    destruct (reference_column df) as (refix & refcolumn & Harg & Hname & Hin & Hmax).
    { unfold ncols in Hmany. apply Nat.ltb_lt in Hmany.
      destruct (columns df); [simpl in Hmany; lia|discriminate]. }
    rewrite Harg. unfold ret at 1. cbn [bind]. rewrite Hname.
    rewrite drop_column_present by (unfold column_names; now apply in_map).
    unfold ret at 1. cbn [bind].
    exists refcolumn,
      (mkFrame (index df)
         (filter (fun col => negb (String.eqb (fst col) (fst refcolumn))) (columns df))).
    split; [exact Hin|]. split; [exact Hmax|].
    split; [reflexivity|]. split; [reflexivity|]. split; [|reflexivity].
    unfold ncols. cbn [columns]. apply drop_one_column; [exact Hnd|].
    now apply in_map.
  - intros label_col Hcols. unfold ncols, column_names. rewrite Hcols.
    destruct df as [idx cols]. simpl in Hcols. subst cols. reflexivity.
Qed.

(** C8, two instances: [example_snp] keeps two labels, [example_mono] one. *)
Lemma obt_haplo_hard_single_row_witness :
  obt_haplo_hard example_mono
  = ret (mkHaploOut (mkFrame ["S1"; "S2"] [("A", [2; 2])]) 0 (Single "A")
           [Single "A"; Single "missing"] 1)
  /\ exists refcolumn dropped,
       In refcolumn (columns (fst (makehaplodf example_snp true)))
       /\ obt_haplo_hard example_snp
          = ret (mkHaploOut dropped 2 (Single (fst refcolumn))
                   [Single "A"; Single "T"] (ncols dropped)).
Proof.
  split.
  - exact (proj2 (obt_haplo_hard_single_row example_mono eq_refl) ("A", [2; 2]) eq_refl).
  - destruct (proj1 (obt_haplo_hard_single_row example_snp eq_refl))
      as (refcolumn & dropped & Hin & _ & _ & _ & _ & Hout).
    + vm_compute. lia.
    + exists refcolumn, dropped. split; [exact Hin|exact Hout].
Defined.

(** The upper-case all-absence label, when it survives, is dropped and the
    reference is reported as ["missing"]. *)
Lemma obt_haplo_hard_upper_missing (aadf : block) :
  1 < List.length (rows aadf) ->
  let df := fst (makehaplodf aadf true) in
  let missing := repeat_char "A" (List.length (rows aadf)) in
  In missing (column_names df) ->
  exists dropped,
    columns dropped
    = filter (fun col => negb (String.eqb (fst col) missing)) (columns df)
    /\ obt_haplo_hard aadf
       = ret (mkHaploOut dropped (ncols df) (Single "missing")
                (snd (makehaplodf aadf true)) (ncols dropped)).
Proof.
  intros Hrows. cbn zeta. intro Hin. unfold obt_haplo_hard.
  apply Nat.ltb_lt in Hrows. rewrite Hrows.
  destruct (makehaplodf aadf true) as [df aas]. cbn [fst snd] in *.
  replace (existsb (String.eqb (repeat_char "A" (List.length (rows aadf))))
             (column_names df)) with true.
  2:{ symmetry. apply existsb_exists. eexists. split; [exact Hin|apply String.eqb_refl]. }
  cbn [orb]. rewrite drop_column_present by exact Hin.
  unfold ret at 1. cbn [bind].
  exists (mkFrame (index df)
            (filter (fun col => negb (String.eqb (fst col)
                                        (repeat_char "A" (List.length (rows aadf)))))
               (columns df))).
  split; reflexivity.
Qed.

(** The lower-case all-absence label alone takes the same branch, and the
    branch then drops the upper-case label, which is not a column. *)
Lemma obt_haplo_hard_lower_only (aadf : block) :
  1 < List.length (rows aadf) ->
  let df := fst (makehaplodf aadf true) in
  In (repeat_char "a" (List.length (rows aadf))) (column_names df) ->
  ~ In (repeat_char "A" (List.length (rows aadf))) (column_names df) ->
  obt_haplo_hard aadf = raise (KeyError (repeat_char "A" (List.length (rows aadf)))).
Proof.
  intros Hrows. cbn zeta. intros Hlow Hup. unfold obt_haplo_hard.
  apply Nat.ltb_lt in Hrows. rewrite Hrows.
  destruct (makehaplodf aadf true) as [df aas]. cbn [fst] in *.
  replace (existsb (String.eqb (repeat_char "a" (List.length (rows aadf))))
             (column_names df)) with true.
  2:{ symmetry. apply existsb_exists. eexists. split; [exact Hlow|apply String.eqb_refl]. }
  rewrite orb_true_r. rewrite drop_column_absent by exact Hup. reflexivity.
Qed.

(** C1, on the code. [example_lower] is a two-row block whose surviving
    labels are ["Ta"], ["aT"] and the lower-case all-absence label ["aa"]:
    [obt_haplo_hard] raises [KeyError] instead of returning a matrix without
    ["aa"] and the reference ["missing"]. On [example_both], where both
    spellings survive, only ["AA"] is dropped and ["aa"] stays a column. On
    the upper-case block [example_multi] the label is dropped as claimed. *)
Theorem obt_haplo_hard_lowercase_absence :
  column_names (fst (makehaplodf example_lower true)) = ["Ta"; "aT"; "aa"]
  /\ obt_haplo_hard example_lower = raise (KeyError "AA")
  /\ (exists out, obt_haplo_hard example_both = ret out
                  /\ refAA out = Single "missing"
                  /\ column_names (haplodf out) = ["Ta"; "aT"; "aa"])
  /\ (exists out, obt_haplo_hard example_multi = ret out
                  /\ refAA out = Single "missing"
                  /\ column_names (haplodf out) = ["AT"; "TA"]).
Proof.
  split; [reflexivity|]. split; [reflexivity|]. split.
  - eexists. split; [reflexivity|]. split; reflexivity.
  - eexists. split; [reflexivity|]. split; reflexivity.
Qed.

(** ** Significance testing *)

(** C6. [lrtest] returns the statistic 2 x (alternative log-likelihood -
    null log-likelihood) and the chi-square survival function at that
    statistic with (alternative [df_model] - null [df_model]) degrees of
    freedom; [obt] hands it the null fit first and the alternative fit
    second, so its LR statistic and p-value are those of the two fits. *)
Theorem lrtest_statistic (chi2_sf : float -> float -> float) :
  (forall nullmodel altmodel : fitted,
      let statistic := (2 * (llf altmodel - llf nullmodel))%float in
      let dof := (df_model altmodel - df_model nullmodel)%float in
      lrtest chi2_sf nullmodel altmodel = (statistic, chi2_sf statistic dof))
  /\ (forall f_sf log_loss (T : Type) (HT : Table T) glm_binomial ols round3
             (a : abt T) n model,
        exists altf nullf,
          let fit := if String.eqb (lower model) "logit" then glm_binomial else ols in
          let out := obt chi2_sf f_sf log_loss glm_binomial ols round3 a n model in
          let statistic := (2 * (llf (fit altf a) - llf (fit nullf a)))%float in
          fst (fst (fst (fst out))) = statistic
          /\ snd (fst (fst (fst out)))
             = chi2_sf statistic (df_model (fit altf a) - df_model (fit nullf a))%float).
Proof.
  split; [reflexivity|].
  intros. unfold obt. do 2 eexists. cbn zeta.
  destruct (String.eqb (lower model) "logit"); cbv zeta;
    unfold lrtest;
    repeat match goal with |- context [let '(_, _) := ?p in _] => destruct p end;
    cbn [fst snd]; split; reflexivity.
Qed.

(** C7. [anova] takes as residual term twice the unnormalized log-loss of
    the true classes against the pairs (1 - p, p) of predicted class
    probabilities when [modeltype] is ["logit"], and the residual sum of
    squares otherwise; its statistic is (null residual - alternative
    residual) / (null residual df - alternative residual df) / alternative
    scale, and its p-value the F survival function at that statistic with
    (df difference, alternative residual df). *)
Theorem anova_statistic (f_sf : float -> float -> float -> float)
  (log_loss : list float -> list (float * float) -> float)
  (nullmodel altmodel : fitted) (ytrue : list float) (modeltype : string) :
  let residual model :=
    if String.eqb modeltype "logit"
    then (2 * log_loss ytrue (map (fun p => ((1 - p)%float, p)) (predict model)))%float
    else ssr model in
  let dof := (df_resid nullmodel - df_resid altmodel)%float in
  let fvalue :=
    ((residual nullmodel - residual altmodel) / dof / scale altmodel)%float in
  anova f_sf log_loss nullmodel altmodel ytrue modeltype
  = (fvalue, f_sf fvalue dof (df_resid altmodel)).
Proof.
  cbn zeta. unfold anova, deviance.
  destruct (String.eqb modeltype "logit"); reflexivity.
Qed.

(** ** Tier selection *)

Lemma obt_coefs_rounded chi2_sf f_sf log_loss {T : Type} `{Table T}
  glm_binomial ols round3 (a : abt T) n model :
  exists raw,
    snd (obt chi2_sf f_sf log_loss glm_binomial ols round3 a n model)
    = map round3 raw.
Proof.
  unfold obt.
  destruct (String.eqb (lower model) "logit"); cbv zeta;
    repeat match goal with |- context [let '(_, _) := ?p in _] => destruct p end;
    cbn [snd]; eexists; rewrite <- map_map; reflexivity.
Qed.

(** C2. The row [analyseAA] appends for a variant follows [AAcount]: above
    2, the omnibus fields hold the LR and ANOVA p-values of [obt] and its
    rounded coefficients joined by [", "], the univariate fields are NaN;
    at exactly 2, the univariate fields hold the p-value and coefficient of
    [linear_model] and the omnibus fields are NaN; below 2, every statistic
    field and [Ref_AA] are NaN. *)
Theorem analyseAA_tier_selection
  (chi2_sf : float -> float -> float) (f_sf : float -> float -> float -> float)
  (log_loss : list float -> list (float * float) -> float)
  (round3 : float -> float) (str_float : float -> string)
  (str_result : aablock_result -> string) (set_iter : list string -> list string)
  {T : Type} `{Table T} (glm_binomial ols : string -> abt T -> fitted)
  (info : variant_info) (h : haplo_out T) (fam_ : fam) (modeltype : string) :
  let row :=
    analyseAA_row chi2_sf f_sf log_loss round3 str_float str_result set_iter
      glm_binomial ols info h fam_ modeltype in
  let abt := mkAbt (haplodf h) fam_ in
  let omnibus :=
    obt chi2_sf f_sf log_loss glm_binomial ols round3 abt (haplocount h) modeltype in
  let univariate := linear_model glm_binomial ols round3 abt modeltype in
  (2 < AAcount h ->
   LR_p row = snd (fst (fst (fst omnibus)))
   /\ Anova_p row = snd (fst omnibus)
   /\ multi_Coef row = CStr (join ", " (map str_float (snd omnibus)))
   /\ (exists raw, snd omnibus = map round3 raw)
   /\ Uni_p row = PrimFloat.nan /\ Uni_Coef row = PrimFloat.nan
   /\ Ref_AA row = cell_of_result (refAA h))
  /\ (AAcount h = 2 ->
      Uni_p row = fst (fst (fst univariate))
      /\ Uni_Coef row = snd (fst (fst univariate))
      /\ LR_p row = PrimFloat.nan /\ Anova_p row = PrimFloat.nan
      /\ multi_Coef row = NaN
      /\ Ref_AA row = cell_of_result (refAA h))
  /\ (AAcount h < 2 ->
      LR_p row = PrimFloat.nan /\ Anova_p row = PrimFloat.nan
      /\ multi_Coef row = NaN
      /\ Uni_p row = PrimFloat.nan /\ Uni_Coef row = PrimFloat.nan
      /\ Ref_AA row = NaN).
Proof.
  cbn zeta. unfold analyseAA_row.
  pose proof (obt_coefs_rounded chi2_sf f_sf log_loss glm_binomial ols round3
                (mkAbt (haplodf h) fam_) (haplocount h) modeltype) as Hraw.
  destruct (obt chi2_sf f_sf log_loss glm_binomial ols round3
              (mkAbt (haplodf h) fam_) (haplocount h) modeltype)
    as [[[[lrstat lrp] fstat] fp] coefs].
  destruct (linear_model glm_binomial ols round3 (mkAbt (haplodf h) fam_) modeltype)
    as [[[uni_p coef] ci1] ci2].
  cbn [fst snd] in *.
  split; [|split]; intro Hc.
  - apply Nat.ltb_lt in Hc. rewrite Hc. cbn. repeat split; auto.
  - rewrite Hc. cbn. repeat split; auto.
  - destruct (Nat.ltb_spec 2 (AAcount h)); [lia|].
    destruct (Nat.eqb_spec (AAcount h) 2); [lia|]. cbn. repeat split; auto.
Qed.

(** C2 at the boundaries, on hard-call blocks: [example_multi] keeps three
    label columns and takes the omnibus tier, [example_snp] has
    [AAcount] 2 and [example_mono] has [AAcount] 0. *)
Lemma example_AAcounts :
  (exists out, obt_haplo_hard example_multi = ret out /\ AAcount out = 3)
  /\ (exists out, obt_haplo_hard example_snp = ret out /\ AAcount out = 2)
  /\ (exists out, obt_haplo_hard example_mono = ret out /\ AAcount out = 0).
Proof. repeat split; eexists; split; reflexivity. Qed.

(** ** The derived [LRp_Unip] column *)

Lemma Prim2SF_zero : Prim2SF 0%float = S754_zero false.
Proof. reflexivity. Qed.

Lemma is_nan_false_SF p : PrimFloat.is_nan p = false -> Prim2SF p <> S754_nan.
Proof.
  unfold PrimFloat.is_nan. rewrite FloatAxioms.eqb_spec.
  intros Hp E. rewrite E in Hp. discriminate.
Qed.

(** Adding the float zero to a number leaves it as it is, unless the number
    is itself a zero (of either sign). *)
Lemma float_add_zero_r p :
  PrimFloat.is_nan p = false ->
  ((p =? 0)%float = true /\ ((p + 0) =? 0)%float = true)
  \/ ((p =? 0)%float = false /\ (p + 0)%float = p).
Proof.
  intro Hn. apply is_nan_false_SF in Hn.
  rewrite !FloatAxioms.eqb_spec, add_spec, Prim2SF_zero.
  destruct (Prim2SF p) as [s|s| |s m e] eqn:E.
  - left. destruct s; split; reflexivity.
  - right. split; [destruct s; reflexivity|].
    apply Prim2SF_inj. rewrite add_spec, Prim2SF_zero, E. reflexivity.
  - congruence.
  - right. split; [destruct s; reflexivity|].
    apply Prim2SF_inj. rewrite add_spec, Prim2SF_zero, E. reflexivity.
Qed.

Lemma float_add_zero_l p :
  PrimFloat.is_nan p = false ->
  ((p =? 0)%float = true /\ ((0 + p) =? 0)%float = true)
  \/ ((p =? 0)%float = false /\ (0 + p)%float = p).
Proof.
  intro Hn. apply is_nan_false_SF in Hn.
  rewrite !FloatAxioms.eqb_spec, add_spec, Prim2SF_zero.
  destruct (Prim2SF p) as [s|s| |s m e] eqn:E.
  - left. destruct s; split; reflexivity.
  - right. split; [destruct s; reflexivity|].
    apply Prim2SF_inj. rewrite add_spec, Prim2SF_zero, E. reflexivity.
  - congruence.
  - right. split; [destruct s; reflexivity|].
    apply Prim2SF_inj. rewrite add_spec, Prim2SF_zero, E. reflexivity.
Qed.

Lemma for_each_map {A B : Type} (f : A -> result B) (l : list A) out :
  for_each f l = ret out -> Forall2 (fun x y => f x = ret y) l out.
Proof.
  revert out. induction l as [|x l IH]; simpl; intros out Hout.
  - inversion Hout. constructor.
  - destruct (f x) as [e|y] eqn:Ex; [discriminate|]. simpl in Hout.
    destruct (for_each f l) as [e|ys]; [discriminate|]. simpl in Hout.
    inversion Hout; subst. constructor; [exact Ex|]. now apply IH.
Qed.

(** C10. Every entry of [LRp_Unip] is the sum of the row's [LR_p] and
    [Uni_p] with NaN read as 0, an exact-zero sum being replaced by NaN.
    So when exactly one of the two is a number, [LRp_Unip] is that number,
    except that a p-value equal to zero gives NaN; when both are NaN it is
    NaN. *)
Theorem LRp_Unip_column :
  (forall lr_p uni_p,
      let total :=
        ((if PrimFloat.is_nan lr_p then 0 else lr_p)
         + (if PrimFloat.is_nan uni_p then 0 else uni_p))%float in
      LRp_Unip_of lr_p uni_p
      = if (total =? 0)%float then PrimFloat.nan else total)
  /\ (forall p,
        PrimFloat.is_nan p = false ->
        LRp_Unip_of p PrimFloat.nan = (if (p =? 0)%float then PrimFloat.nan else p)
        /\ LRp_Unip_of PrimFloat.nan p = (if (p =? 0)%float then PrimFloat.nan else p))
  /\ LRp_Unip_of PrimFloat.nan PrimFloat.nan = PrimFloat.nan
  /\ (forall chi2_sf f_sf log_loss round3 str_float str_result set_iter
             (T : Type) (HT : Table T) glm_binomial ols
             (V : Type) (build : V -> result (haplo_out T))
             variants fam_ modeltype output,
        analyseAA chi2_sf f_sf log_loss round3 str_float str_result set_iter
          glm_binomial ols build variants fam_ modeltype = ret output ->
        List.length output = List.length variants
        /\ Forall (fun r => LRp_Unip r = LRp_Unip_of (LR_p (appended r)) (Uni_p (appended r)))
             output).
Proof.
  split; [reflexivity|]. split.
  - intros p Hp. unfold LRp_Unip_of, fillna0, replace0_nan. rewrite Hp.
    change (PrimFloat.is_nan PrimFloat.nan) with true. cbv iota. split.
    + destruct (float_add_zero_r p Hp) as [[H0 H1]|[H0 H1]]; rewrite H0, H1;
        [reflexivity|]. now rewrite H0.
    + destruct (float_add_zero_l p Hp) as [[H0 H1]|[H0 H1]]; rewrite H0, H1;
        [reflexivity|]. now rewrite H0.
  - split; [reflexivity|]. intros until output. unfold analyseAA. intro Hout.
    destruct (for_each _ variants) as [e|rows_] eqn:Erows; [discriminate|].
    simpl in Hout. inversion Hout; subst. split.
    + rewrite length_map. apply for_each_map in Erows.
      symmetry. exact (Forall2_length Erows).
    + apply Forall_forall. intros r Hr. apply in_map_iff in Hr.
      destruct Hr as (r0 & <- & _). reflexivity.
Qed.

(** C10, instances: an omnibus p-value of one half is carried over, a
    univariate p-value of zero comes out as NaN. *)
Lemma LRp_Unip_column_examples :
  LRp_Unip_of 0.5%float PrimFloat.nan = 0.5%float
  /\ LRp_Unip_of PrimFloat.nan 0%float = PrimFloat.nan
  /\ LRp_Unip_of PrimFloat.nan PrimFloat.nan = PrimFloat.nan.
Proof. repeat split; reflexivity. Qed.

(** ** [analyseSNP] across variants *)

(** C9, on the code. A two-label variant followed by the one-label variant
    [example_mono] (tier not univariate): the row of [example_mono] carries
    the confidence bounds [linear_model] returned for the variant before it,
    so it changes with that variant's data ([example_snp] against
    [example_snp']); run first, the same variant raises [NameError]. *)
Theorem analyseSNP_conf_int_carried_over
  (round3 : float -> float) (glm_binomial ols : string -> abt frame -> fitted)
  (first_info mono_info : variant_info) (fam_ : fam) (modeltype : string) :
  let fit df := linear_model glm_binomial ols round3 (mkAbt df fam_) modeltype in
  let run first := analyseSNP round3 glm_binomial ols
                     [(first_info, first); (mono_info, example_mono)] fam_ modeltype in
  let rows_after df :=
    [mkSNPRow (info_AA_ID first_info) (info_POS first_info)
       (fst (fst (fst (fit df)))) (snd (fst (fst (fit df))))
       (snd (fst (fit df))) (snd (fit df));
     mkSNPRow (info_AA_ID mono_info) (info_POS mono_info)
       PrimFloat.nan PrimFloat.nan
       (snd (fst (fit df))) (snd (fit df))] in
  run example_snp = ret (rows_after (mkFrame ["S1"; "S2"] [("snp_T", [0; 1])]))
  /\ run example_snp' = ret (rows_after (mkFrame ["S1"; "S2"] [("snp_T", [1; 1])]))
  /\ analyseSNP round3 glm_binomial ols [(mono_info, example_mono)] fam_ modeltype
     = raise (NameError "conf_int1").
Proof.
  cbn zeta. unfold analyseSNP. split; [|split].
  - cbn -[linear_model].
    destruct (linear_model _ _ _ _ _) as [[[p c] lo] hi]. reflexivity.
  - cbn -[linear_model].
    destruct (linear_model _ _ _ _ _) as [[[p c] lo] hi]. reflexivity.
  - reflexivity.
Qed.

(** ** Splitting and joining text *)

Lemma split_nonempty sep s : split sep s <> [].
Proof.
  destruct s as [|c s]; simpl; [discriminate|].
  destruct (Ascii.eqb c sep); [discriminate|].
  destruct (split sep s); discriminate.
Qed.

Lemma string_append_nil_r (s : string) : (s ++ "")%string = s.
Proof. induction s as [|c s IH]; simpl; [reflexivity|]. now rewrite IH. Qed.

Lemma string_append_assoc (a b c : string) :
  ((a ++ b) ++ c)%string = (a ++ (b ++ c))%string.
Proof. induction a as [|x a IH]; simpl; [reflexivity|]. now rewrite IH. Qed.

Lemma join_cons sep x l :
  l <> [] -> join sep (x :: l) = (x ++ sep ++ join sep l)%string.
Proof. destruct l; [congruence|reflexivity]. Qed.

(** [sep.join(s.split(sep)) == s] *)
Lemma join_split sep s : join (str1 sep) (split sep s) = s.
Proof.
  induction s as [|c s IH]; [reflexivity|]. simpl.
  destruct (Ascii.eqb_spec c sep) as [->|Hne].
  - rewrite join_cons by apply split_nonempty. simpl. now rewrite IH.
  - pose proof (split_nonempty sep s) as Hs.
    destruct (split sep s) as [|t ts]; [congruence|].
    destruct ts as [|t' ts].
    + simpl in *. now rewrite IH.
    + rewrite join_cons in IH by discriminate.
      rewrite join_cons by discriminate. rewrite <- IH. reflexivity.
Qed.

Lemma join_app sep l1 l2 :
  l1 <> [] -> l2 <> [] ->
  join sep (l1 ++ l2) = (join sep l1 ++ sep ++ join sep l2)%string.
Proof.
  intros H1 H2. induction l1 as [|x l1 IH]; [congruence|].
  destruct l1 as [|y l1].
  - simpl app. now rewrite join_cons.
  - change ((x :: y :: l1) ++ l2) with (x :: (y :: l1) ++ l2).
    rewrite join_cons by discriminate.
    rewrite IH by discriminate.
    rewrite (join_cons sep x (y :: l1)) by discriminate.
    now rewrite !string_append_assoc.
Qed.

(** [s.split(sep)[0]] and [s.split(sep)[-1]] are the first and the last
    token. *)
Lemma split_first_hd sep s : split_first sep s = hd EmptyString (split sep s).
Proof.
  induction s as [|c s IH]; [reflexivity|]. simpl.
  destruct (Ascii.eqb c sep); [reflexivity|].
  pose proof (split_nonempty sep s) as Hs.
  destruct (split sep s) as [|t ts]; [congruence|].
  simpl in *. now rewrite IH.
Qed.

Lemma split_last_aux_spec sep s : forall acc,
  split_last_aux sep s acc
  = match split sep s with
    | [t] => (acc ++ t)%string
    | ts => last ts EmptyString
    end.
Proof.
  induction s as [|c s IH]; intro acc; simpl.
  - now rewrite string_append_nil_r.
  - pose proof (split_nonempty sep s) as Hs.
    destruct (Ascii.eqb c sep).
    + rewrite IH. destruct (split sep s) as [|t [|t' ts]]; [congruence| |]; reflexivity.
    + rewrite IH. destruct (split sep s) as [|t [|t' ts]]; [congruence| |].
      * now rewrite string_append_assoc.
      * reflexivity.
Qed.

Lemma split_last_last sep s : split_last sep s = last (split sep s) EmptyString.
Proof.
  unfold split_last. rewrite split_last_aux_spec.
  pose proof (split_nonempty sep s) as Hs.
  destruct (split sep s) as [|t [|t' ts]]; [congruence| |]; reflexivity.
Qed.



(** ** Variant ids and the tables they land in *)



Lemma breakitup_idname_tokens (variantID : string) :
  let tokens := split "_" variantID in
  (List.length tokens <= 4 -> idname (breakitup variantID) = variantID)
  /\ (4 < List.length tokens ->
      variantID
      = (idname (breakitup variantID) ++ "_" ++ join "_" (skipn 4 tokens))%string).
Proof.
  cbn zeta. unfold breakitup.
  pose proof (join_split "_" variantID) as Hjoin.
  change (str1 "_") with "_" in Hjoin.
  destruct (Nat.ltb_spec 1 (List.length (split "_" variantID))) as [Hlt|Hle];
    cbn [idname]; split; intro Hlen; try lia.
  - rewrite firstn_all2 by lia. exact Hjoin.
  - rewrite <- join_app.
    + now rewrite firstn_skipn.
    + intro H0. apply (f_equal (@List.length string)) in H0.
      rewrite firstn_length_le in H0 by lia. discriminate.
    + intro H0. apply (f_equal (@List.length string)) in H0.
      rewrite length_skipn in H0. simpl in H0. lia.
  - reflexivity.
Qed.

Lemma breakitup_residue_suffix (variantID : string) :
  List.length (split "_" variantID) = 5 ->
  variantID
  = (idname (breakitup variantID) ++ "_" ++ split_last "_" variantID)%string
  /\ variantype (breakitup variantID) = split_first "_" variantID.
Proof.
  intro Hlen. split.
  - destruct (breakitup_idname_tokens variantID) as [_ Hlong].
    rewrite split_last_last.
    replace (last (split "_" variantID) EmptyString)
      with (join "_" (skipn 4 (split "_" variantID))); [apply Hlong; lia|].
    destruct (split "_" variantID) as [|t0 [|t1 [|t2 [|t3 [|t4 [|t5 ts]]]]]];
      simpl in Hlen; try discriminate. reflexivity.
  - unfold breakitup. rewrite Hlen. cbn. rewrite split_first_hd.
    destruct (split "_" variantID); reflexivity.
Qed.

(** The id column that [breakitup] derives is the variant id itself when
    it has at most four [_]-separated tokens, and otherwise its first four
    tokens, so that the id is this prefix, an underscore and the remaining
    tokens. An id of exactly five tokens, as the amino-acid ids are, is its
    [AA_ID], an underscore and the residue suffix that [get_aminoacids] and
    [getRefAA] read with [split("_")[-1]]. *)
Theorem breakitup_idname (variantID : string) :
  let tokens := split "_" variantID in
  (List.length tokens <= 4 -> idname (breakitup variantID) = variantID)
  /\ (4 < List.length tokens ->
      variantID
      = (idname (breakitup variantID) ++ "_" ++ join "_" (skipn 4 tokens))%string)
  /\ (List.length tokens = 5 ->
      variantID
      = (idname (breakitup variantID) ++ "_" ++ split_last "_" variantID)%string).
Proof.
  cbn zeta. destruct (breakitup_idname_tokens variantID) as [Hshort Hlong].
  split; [exact Hshort|]. split; [exact Hlong|].
  intro Hlen. exact (proj1 (breakitup_residue_suffix variantID Hlen)).
Qed.

Lemma breakitup_idname_witness :
  "AA_A_9_29910558_F"
  = (idname (breakitup "AA_A_9_29910558_F") ++ "_"
     ++ split_last "_" "AA_A_9_29910558_F")%string.
Proof. exact (proj2 (proj2 (breakitup_idname "AA_A_9_29910558_F")) eq_refl). Defined.


(** ** Trimming the data to the covariate table *)

Lemma index_of_In name l :
  In name l -> exists j, index_of name l = Some j.
Proof.
  induction l as [|x l IH]; simpl; intro Hin; [contradiction|].
  destruct (String.eqb_spec x name) as [_|Hne]; [now exists 0|].
  destruct Hin as [Heq|Hin]; [contradiction|].
  destruct (IH Hin) as [j Hj]. rewrite Hj. now exists (S j).
Qed.

Lemma index_of_not_In name l :
  ~ In name l -> index_of name l = None.
Proof.
  induction l as [|x l IH]; simpl; intro Hnot; [reflexivity|].
  destruct (String.eqb_spec x name) as [Heq|_]; [exfalso; apply Hnot; now left|].
  rewrite IH; [reflexivity|]. intro H. apply Hnot. now right.
Qed.

Lemma for_each_ok {A B : Type} (f : A -> result B) (g : A -> B) l :
  (forall x, In x l -> f x = ret (g x)) -> for_each f l = ret (map g l).
Proof.
  induction l as [|x l IH]; simpl; intro Hall; [reflexivity|].
  rewrite (Hall x (or_introl eq_refl)). simpl.
  rewrite IH by (intros y Hy; apply Hall; now right). reflexivity.
Qed.

Lemma for_each_error {A B : Type} (f : A -> result B) l :
  (exists x, In x l /\ exists e, f x = raise e) ->
  exists x e, In x l /\ f x = raise e /\ for_each f l = raise e.
Proof.
  induction l as [|y l IH]; intros (x & Hx & e & He); [contradiction|].
  simpl. destruct (f y) as [e'|b] eqn:Ey.
  - exists y, e'. split; [now left|]. split; [exact Ey|reflexivity].
  - destruct Hx as [->|Hx]; [unfold raise in He; congruence|].
    destruct (IH (ex_intro _ x (conj Hx (ex_intro _ e He)))) as (x' & e' & Hx' & He' & Hf).
    exists x', e'. split; [now right|]. split; [exact He'|].
    simpl. rewrite Hf. reflexivity.
Qed.

(** [df[newix]] returns the named columns in the order asked for, each row
    keeping its id and its calls under those columns, when every name is a
    column; otherwise it raises [KeyError] on a name that is not one. *)
Lemma select_columns_outcome (newix : list string) (df : block) :
  ((forall name, In name newix -> In name (samples df)) ->
   select_columns newix df
   = ret (mkBlock newix
            (map (fun r => (fst r, map (cell_at df r) newix)) (rows df))))
  /\ ((exists name, In name newix /\ ~ In name (samples df)) ->
      exists missing,
        In missing newix /\ ~ In missing (samples df)
        /\ select_columns newix df = raise (KeyError missing)).
Proof.
  unfold select_columns. split.
  - intro Hall.
    rewrite (for_each_ok _ (fun name => match index_of name (samples df) with
                                        | Some j => j | None => 0 end)).
    + simpl. unfold ret. do 2 f_equal. apply map_ext. intro r. f_equal.
      rewrite map_map. apply map_ext_in. intros name Hname. unfold cell_at.
      destruct (index_of_In name (samples df) (Hall name Hname)) as [j Hj].
      now rewrite Hj.
    + intros name Hname.
      destruct (index_of_In name (samples df) (Hall name Hname)) as [j Hj].
      now rewrite Hj.
  - intros (name & Hname & Hnot).
    destruct (for_each_error
                (fun name => match index_of name (samples df) with
                             | Some j => ret j
                             | None => raise (KeyError name)
                             end) newix) as (x & e & Hx & He & Hf).
    { exists name. split; [exact Hname|]. exists (KeyError name).
      now rewrite (index_of_not_In name (samples df) Hnot). }
    exists x. destruct (index_of x (samples df)) as [j|] eqn:Ej; [discriminate He|].
    split; [exact Hx|]. split.
    + intro Hin. destruct (index_of_In x (samples df) Hin) as [j Hj]. congruence.
    + rewrite Hf. inversion He. reflexivity.
Qed.

(** [subsectionFam] asks for the fam ids on soft calls, for every fam id
    followed by its second copy [<id>.1] on hard calls, and for no column at
    all on any other data type, which then returns a table without sample
    columns instead of an error. On hard calls it returns those columns, in
    fam order, when the data has them all, and raises [KeyError] when a
    fam sample or its second copy is not a column of the data. *)
Theorem subsectionFam_columns (dataframe : block) (fam_index : list string)
  (datatype : string) :
  (datatype = "softcall" ->
   subsectionFam dataframe fam_index datatype = select_columns fam_index dataframe)
  /\ (datatype = "hardcall" ->
      List.length (subsectionFam_index fam_index datatype) = 2 * List.length fam_index
      /\ ((forall x, In x fam_index ->
             In x (samples dataframe) /\ In (x ++ ".1")%string (samples dataframe)) ->
          exists out, subsectionFam dataframe fam_index datatype = ret out
                      /\ samples out = flat_map (fun x => [x; (x ++ ".1")%string]) fam_index
                      /\ rows out
                         = map (fun r => (fst r, map (cell_at dataframe r) (samples out)))
                             (rows dataframe))
      /\ ((exists x, In x fam_index
                     /\ (~ In x (samples dataframe)
                         \/ ~ In (x ++ ".1")%string (samples dataframe))) ->
          exists missing, subsectionFam dataframe fam_index datatype
                          = raise (KeyError missing)
                          /\ ~ In missing (samples dataframe)))
  /\ (datatype <> "softcall" -> datatype <> "hardcall" ->
      subsectionFam dataframe fam_index datatype
      = ret (mkBlock [] (map (fun r => (fst r, [])) (rows dataframe)))).
Proof.
  unfold subsectionFam, subsectionFam_index. split; [|split].
  - intros ->. reflexivity.
  - intros ->. cbn [String.eqb Ascii.eqb Bool.eqb]. cbv iota.
    destruct (select_columns_outcome
                (flat_map (fun x => [x; (x ++ ".1")%string]) fam_index) dataframe)
      as [Hok Hbad].
    split; [|split].
    + clear Hok Hbad.
      induction fam_index as [|x l IH]; simpl; [reflexivity|]. rewrite IH. lia.
    + intro Hall. eexists. split; [apply Hok|split; reflexivity].
      intros name Hname. apply in_flat_map in Hname.
      destruct Hname as (x & Hx & [E|[E|[]]]); subst; now apply Hall.
    + intros (x & Hx & Hmiss).
      destruct Hbad as (missing & _ & Hnot & Hraise).
      * destruct Hmiss as [Hmiss|Hmiss]; eexists; (split; [|exact Hmiss]);
          apply in_flat_map; exists x; (split; [exact Hx|]); simpl; auto.
      * exists missing. split; [exact Hraise|exact Hnot].
  - intros Hs Hh.
    apply String.eqb_neq in Hs, Hh. rewrite Hs, Hh. reflexivity.
Qed.

Lemma subsectionFam_columns_witness :
  exists out,
    subsectionFam example_multi ["S2"] "hardcall" = ret out
    /\ samples out = ["S2"; "S2.1"].
Proof.
  destruct (proj1 (proj2 (proj1 (proj2 (subsectionFam_columns example_multi ["S2"] "hardcall")) eq_refl)))
    as (out & Hout & Hs & _).
  - intros x [<-|[]]. simpl. tauto.
  - exists out. split; [exact Hout|exact Hs].
Defined.

(** ** Sample alignment between the matrix and the covariate table *)

Lemma insert_sorted_ascending {A : Type} (key : A -> string) x l :
  Sorted (fun a b => String.leb (key a) (key b) = true) l ->
  Sorted (fun a b => String.leb (key a) (key b) = true)
    (insert_sorted (fun a b => String.leb (key a) (key b)) x l).
Proof.
  induction 1 as [|y l Hs IH Hhd]; simpl.
  - repeat constructor.
  - destruct (String.leb (key x) (key y)) eqn:E.
    + constructor; [now constructor|]. now constructor.
    + constructor; [exact IH|].
      assert (Hyx : String.leb (key y) (key x) = true)
        by (destruct (String.leb_total (key x) (key y)); congruence).
      destruct l as [|z l]; simpl.
      * now constructor.
      * destruct (String.leb (key x) (key z)); constructor; [exact Hyx|].
        now inversion Hhd.
Qed.

Lemma stable_sort_ascending {A : Type} (key : A -> string) l :
  Sorted (fun a b => String.leb (key a) (key b) = true)
    (stable_sort (fun a b => String.leb (key a) (key b)) l).
Proof.
  induction l as [|x l IH]; simpl; [constructor|].
  now apply insert_sorted_ascending.
Qed.

Lemma Sorted_map_key {A : Type} (key : A -> string) l :
  Sorted (fun a b => String.leb (key a) (key b) = true) l -> ascending (map key l).
Proof.
  unfold ascending. induction 1 as [|x l Hs IH Hhd]; simpl; constructor; [exact IH|].
  destruct l as [|y l]; simpl; constructor. now inversion Hhd.
Qed.










(** ** Shape of the count matrix *)

Lemma list_sum_ge {A : Type} (f : A -> nat) (a : A) l :
  In a l -> f a <= list_sum (map f l).
Proof.
  induction l as [|x l IH]; simpl; [intros []|intros [->|Hin]]; [lia|].
  specialize (IH Hin). lia.
Qed.

Lemma group_size_row keys labels r :
  NoDup labels -> (forall k, In k keys -> In (snd k) labels) ->
  list_sum (map (group_size keys r) labels)
  = count_occ string_dec (map fst keys) r.
Proof.
  intros Hlab. induction keys as [|k keys IH]; intro Hin.
  - simpl. unfold group_size. simpl. apply list_sum_map_zero.
  - erewrite map_ext; [|intro c; apply group_size_cons].
    rewrite list_sum_map_add, IH by (intros k' Hk'; apply Hin; now right).
    cbn [map count_occ].
    erewrite map_ext.
    2:{ intro c. instantiate (1 := fun c => if String.eqb r (fst k)
                                            then (if String.eqb c (snd k) then 1 else 0)
                                            else 0).
        simpl. unfold pair_eqb. simpl. destruct (String.eqb r (fst k)); reflexivity. }
    destruct (String.eqb_spec r (fst k)) as [->|Hne].
    + rewrite (indicator_sum (snd k) labels Hlab) by (apply Hin; now left).
      destruct (string_dec (fst k) (fst k)); [reflexivity|congruence].
    + rewrite list_sum_map_zero.
      destruct (string_dec (fst k) r); [congruence|reflexivity].
Qed.

Lemma group_size_pos keys k :
  In k keys -> 1 <= group_size keys (fst k) (snd k).
Proof.
  induction keys as [|k' keys IH]; [intros []|intros [->|Hin]].
  - rewrite group_size_cons. unfold pair_eqb. simpl.
    rewrite !String.eqb_refl. simpl. lia.
  - rewrite group_size_cons. specialize (IH Hin). lia.
Qed.

(** The matrix [makehaplodf] builds without the frequency floor is
    rectangular, has no empty label column, and row [k] adds up to the
    number of sample-copy columns of the sample of that row: to 2 for every
    row when each sample has its two copies, so that every entry is 0, 1
    or 2. *)
Theorem count_matrix_shape (aa_df : block) :
  let df := fst (makehaplodf aa_df false) in
  Forall (fun col => List.length (snd col) = nrows df) (columns df)
  /\ Forall (fun col => 1 <= column_total col) (columns df)
  /\ (forall k r, nth_error (index df) k = Some r ->
        row_sum df k = count_occ string_dec (base_ids aa_df) r)
  /\ (diploid aa_df ->
      forall k, k < nrows df ->
        row_sum df k = 2
        /\ Forall (fun col => nth k (snd col) 0 <= 2) (columns df)).
Proof.
  cbn zeta. unfold makehaplodf. cbn [fst].
  set (keys := copy_keys aa_df).
  set (idx := sorted_unique (map fst keys)).
  set (labels := sorted_unique (map snd keys)).
  assert (Hrow : forall k r, nth_error idx k = Some r ->
            row_sum (count_matrix aa_df) k = count_occ string_dec (base_ids aa_df) r).
  { intros k r Hk. unfold row_sum, count_matrix. cbn [columns].
    fold keys idx labels. rewrite map_map. cbn [snd].
    erewrite map_ext.
    2:{ intro c. transitivity (group_size keys r c); [|reflexivity].
        apply (nth_error_nth (map (fun r0 => group_size keys r0 c) idx) k 0).
        apply (map_nth_error (fun r0 => group_size keys r0 c)). exact Hk. }
    rewrite group_size_row.
    - unfold keys. now rewrite copy_keys_fst.
    - apply sorted_unique_NoDup.
    - intros k' Hk'. apply sorted_unique_In. now apply in_map. }
  split; [|split; [|split]].
  - apply Forall_forall. intros col Hcol. unfold count_matrix in *.
    cbn [columns index nrows] in *. fold keys idx labels in Hcol.
    apply in_map_iff in Hcol. destruct Hcol as (c & <- & _).
    unfold nrows. cbn. now rewrite length_map.
  - apply Forall_forall. intros col Hcol. unfold count_matrix in Hcol.
    cbn [columns] in Hcol. fold keys idx labels in Hcol.
    apply in_map_iff in Hcol. destruct Hcol as (c & <- & Hc).
    apply sorted_unique_In, in_map_iff in Hc. destruct Hc as (k & <- & Hk).
    unfold column_total. cbn [snd].
    eapply Nat.le_trans; [apply (group_size_pos keys k Hk)|].
    apply (list_sum_ge (fun r => group_size keys r (snd k)) (fst k)).
    apply sorted_unique_In. now apply in_map.
  - exact Hrow.
  - intros Hd k Hk.
    assert (Hidx : index (count_matrix aa_df) = idx) by reflexivity.
    unfold nrows in Hk. rewrite Hidx in Hk.
    destruct (nth_error idx k) as [r|] eqn:Er;
      [|apply nth_error_None in Er; lia].
    assert (Hsum : row_sum (count_matrix aa_df) k = 2).
    { rewrite (Hrow k r Er). apply Hd.
      apply nth_error_In in Er. unfold idx, keys in Er.
      apply (proj1 (sorted_unique_In _ _)) in Er.
      now rewrite copy_keys_fst in Er. }
    split; [exact Hsum|].
    apply Forall_forall. intros col Hcol. rewrite <- Hsum. unfold row_sum.
    apply (list_sum_ge (fun col => nth k (snd col) 0) col). exact Hcol.
Qed.

Lemma count_matrix_shape_witness :
  row_sum (fst (makehaplodf example_multi false)) 1 = 2.
Proof.
  refine (proj1 (proj2 (proj2 (proj2 (count_matrix_shape example_multi)))
                   example_multi_diploid 1 _)).
  vm_compute. lia.
Defined.

(** ** Which column becomes the reference *)

Lemma argmax_from_first l : forall pre best_i best_v i,
  i = List.length pre -> best_i < i -> nth best_i pre 0 = best_v ->
  (forall x, In x pre -> x <= best_v) ->
  (forall j, j < best_i -> nth j pre 0 < best_v) ->
  let r := argmax_from best_i best_v i l in
  forall j, j < r -> nth j (pre ++ l) 0 < nth r (pre ++ l) 0.
Proof.
  induction l as [|v l IH]; intros pre bi bv i Hi Hbi Hnth Hmax Hfirst; simpl.
  - rewrite app_nil_r. intros j Hj. rewrite Hnth. now apply Hfirst.
  - replace (pre ++ v :: l) with ((pre ++ [v]) ++ l)
      by (rewrite <- app_assoc; reflexivity).
    destruct (Nat.ltb_spec bv v) as [Hlt|Hge].
    + apply IH.
      * rewrite length_app. simpl. lia.
      * lia.
      * subst i. rewrite app_nth2, Nat.sub_diag by lia. reflexivity.
      * intros x Hx. apply in_app_or in Hx. destruct Hx as [Hx|[<-|[]]]; [|lia].
        specialize (Hmax x Hx). lia.
      * intros j Hj. rewrite app_nth1 by lia.
        assert (Hin : In (nth j pre 0) pre) by (apply nth_In; lia).
        specialize (Hmax _ Hin). lia.
    + apply IH.
      * rewrite length_app. simpl. lia.
      * lia.
      * rewrite app_nth1 by lia. exact Hnth.
      * intros x Hx. apply in_app_or in Hx. destruct Hx as [Hx|[<-|[]]]; [|lia].
        now apply Hmax.
      * intros j Hj. rewrite app_nth1 by lia. now apply Hfirst.
Qed.

(** [np.argmax] raises [ValueError] on an empty sequence; otherwise it
    returns the position of the first largest entry. *)
Lemma argmax_cases (l : list nat) :
  (l = [] -> exists msg, argmax l = raise (ValueError msg))
  /\ (l <> [] ->
      exists r, argmax l = ret r
                /\ r < List.length l
                /\ (forall x, In x l -> x <= nth r l 0)
                /\ (forall j, j < r -> nth j l 0 < nth r l 0)).
Proof.
  split.
  - intros ->. eexists. reflexivity.
  - intro Hne. destruct (argmax_spec l Hne) as (r & Hr & Hlt & Hmax).
    exists r. split; [exact Hr|]. split; [exact Hlt|]. split; [exact Hmax|].
    destruct l as [|v l]; [congruence|].
    inversion Hr as [Hr']. 
    apply (argmax_from_first l [v] 0 v 1); simpl; auto.
    + intros x [<-|[]]. lia.
    + intros j Hj. lia.
Qed.

(** ** Every outcome of [obt_haplo_hard] *)

Lemma existsb_eqb_In label names :
  existsb (String.eqb label) names = true <-> In label names.
Proof.
  rewrite existsb_exists. split.
  - intros (x & Hx & Heq). apply String.eqb_eq in Heq. now subst.
  - intro Hin. exists label. split; [exact Hin|apply String.eqb_refl].
Qed.

Lemma dropped_names label df :
  ~ In label (map fst (filter (fun col => negb (String.eqb (fst col) label)) (columns df))).
Proof.
  intro Hin. apply in_map_iff in Hin. destruct Hin as (col & Hcol & Hin).
  apply filter_In in Hin. destruct Hin as [_ Hin].
  rewrite Hcol, String.eqb_refl in Hin. discriminate.
Qed.

(** [obt_haplo_hard] on at most one row never raises: it reports [AAcount]
    2 when more than one label survives the floor and 0 otherwise, also when
    none survives. On several rows it raises [ValueError] when no label
    survives and [KeyError] when the lower-case all-absence label survives
    without the upper-case one; otherwise it returns the matrix without its
    reference column (the upper-case all-absence label if it survived, else
    a column with the largest total), [AAcount] being the number of labels
    that survived and [haplocount] one less. *)
Theorem obt_haplo_hard_outcome (aadf : block) :
  let df := fst (makehaplodf aadf true) in
  let n := List.length (rows aadf) in
  let upper := repeat_char "A" n in
  let lower := repeat_char "a" n in
  (n <= 1 ->
   exists out,
     obt_haplo_hard aadf = ret out
     /\ haplocount out = ncols (haplodf out)
     /\ ((1 < ncols df /\ AAcount out = 2 /\ haplocount out = ncols df - 1)
         \/ (ncols df <= 1 /\ AAcount out = 0 /\ haplodf out = df)))
  /\ (1 < n ->
      (columns df = [] ->
       exists msg, obt_haplo_hard aadf = raise (ValueError msg))
      /\ (In lower (column_names df) -> ~ In upper (column_names df) ->
          obt_haplo_hard aadf = raise (KeyError upper))
      /\ (In upper (column_names df) ->
          exists out,
            obt_haplo_hard aadf = ret out
            /\ refAA out = Single "missing"
            /\ ~ In upper (column_names (haplodf out))
            /\ AAcount out = ncols df
            /\ haplocount out = ncols df - 1
            /\ ncols (haplodf out) = haplocount out)
      /\ (~ In upper (column_names df) -> ~ In lower (column_names df) ->
          columns df <> [] ->
          exists out refcolumn,
            obt_haplo_hard aadf = ret out
            /\ In refcolumn (columns df)
            /\ (forall col, In col (columns df) ->
                  column_total col <= column_total refcolumn)
            /\ refAA out = getRefAA (fst refcolumn) (map fst (rows aadf))
            /\ ~ In (fst refcolumn) (column_names (haplodf out))
            /\ AAcount out = ncols df
            /\ haplocount out = ncols df - 1
            /\ ncols (haplodf out) = haplocount out)).
Proof.
  cbn zeta. unfold obt_haplo_hard.
  pose proof (makehaplodf_names_NoDup aadf true) as Hnd.
  destruct (makehaplodf aadf true) as [df aas]. cbn [fst] in *.
  assert (Hlen : List.length (column_names df) = ncols df)
    by (unfold column_names, ncols; apply length_map).
  split.
  - intro Hn. destruct (Nat.ltb_spec 1 (List.length (rows aadf))) as [|_]; [lia|].
    rewrite Hlen. destruct (Nat.ltb_spec 1 (ncols df)) as [Hmany|Hfew].
    + destruct (reference_column df) as (refix & refcolumn & Harg & Hname & Hin & Hmax).
      { unfold ncols in Hmany. destruct (columns df); [simpl in Hmany; lia|discriminate]. }
      rewrite Harg. unfold ret at 1. cbn [bind]. rewrite Hname.
      rewrite drop_column_present by (unfold column_names; now apply in_map).
      unfold ret at 1. cbn [bind]. eexists. split; [reflexivity|].
      cbn [haplocount haplodf AAcount]. split; [reflexivity|]. left.
      split; [exact Hmany|]. split; [reflexivity|].
      unfold ncols. cbn [columns]. apply drop_one_column; [exact Hnd|].
      now apply in_map.
    + eexists. split; [reflexivity|]. cbn [haplocount haplodf AAcount].
      split; [reflexivity|]. right. auto.
  - intro Hn. apply Nat.ltb_lt in Hn. rewrite Hn.
    set (upper := repeat_char "A" (List.length (rows aadf))).
    set (lower := repeat_char "a" (List.length (rows aadf))).
    split; [|split; [|split]].
    + intro Hempty.
      assert (Hnames : column_names df = []) by (unfold column_names; now rewrite Hempty).
      rewrite Hnames. cbn [existsb orb]. unfold column_totals. rewrite Hempty.
      eexists. reflexivity.
    + intros Hlow Hup.
      rewrite (proj2 (existsb_eqb_In lower _) Hlow), orb_true_r.
      rewrite drop_column_absent by exact Hup. reflexivity.
    + intro Hup. rewrite (proj2 (existsb_eqb_In upper _) Hup). cbn [orb].
      rewrite drop_column_present by exact Hup.
      unfold ret at 1. cbn [bind]. eexists. split; [reflexivity|].
      cbn [refAA haplodf AAcount haplocount]. split; [reflexivity|].
      split; [apply dropped_names|]. split; [reflexivity|]. split; [|reflexivity].
      unfold ncols. cbn [columns]. apply drop_one_column; [exact Hnd|exact Hup].
    + intros Hup Hlow Hne.
      destruct (existsb (String.eqb upper) (column_names df)) eqn:Eu;
        [apply existsb_eqb_In in Eu; contradiction|].
      destruct (existsb (String.eqb lower) (column_names df)) eqn:El;
        [apply existsb_eqb_In in El; contradiction|].
      cbn [orb].
      destruct (reference_column df Hne) as (refix & refcolumn & Harg & Hname & Hin & Hmax).
      rewrite Harg. unfold ret at 1. cbn [bind]. rewrite Hname.
      rewrite drop_column_present by (unfold column_names; now apply in_map).
      unfold ret at 1. cbn [bind]. eexists. exists refcolumn.
      split; [reflexivity|]. cbn [refAA haplodf AAcount haplocount].
      split; [exact Hin|]. split; [exact Hmax|]. split; [reflexivity|].
      split; [apply dropped_names|]. split; [reflexivity|]. split; [|reflexivity].
      unfold ncols. cbn [columns]. apply drop_one_column; [exact Hnd|].
      now apply in_map.
Qed.

(** ** What the resolver can return *)

(** [checkAAblock] never makes up a residue: a string it returns is empty,
    one of the codes of the block, or one letter that occurs in the block;
    and a block it returns is the block it was given, holding at least two
    distinct letters. *)
Theorem checkAAblock_provenance (aablock : list string) :
  (forall code,
      checkAAblock aablock = Single code ->
      code = EmptyString
      \/ In code aablock
      \/ exists c, code = str1 c /\ In c (flatten_block aablock))
  /\ (forall block,
        checkAAblock aablock = AsBlock block ->
        block = aablock
        /\ exists c1 c2, c1 <> c2
                         /\ In c1 (flatten_block aablock)
                         /\ In c2 (flatten_block aablock)).
Proof.
  destruct (sorted_counter_spec aablock) as (Hnd & Hsound & Hcompl & _).
  unfold checkAAblock.
  set (s := sorted_by_count (Counter (flatten_block aablock))) in *.
  destruct s as [|[k0 n0] [|[k1 n1] rest]]; split.
  - intros code Hc. inversion Hc. now left.
  - intros block Hc. discriminate.
  - intros code Hc. inversion Hc. right. left.
    destruct (Hsound k0 n0 (or_introl eq_refl)) as [_ Hk0].
    destruct aablock as [|code0 l]; [contradiction|]. simpl. now left.
  - intros block Hc. discriminate.
  - intros code Hc. destruct (negb (Nat.eqb n0 n1)); [|discriminate].
    inversion Hc. right. right. exists k0. split; [reflexivity|].
    exact (proj2 (Hsound k0 n0 (or_introl eq_refl))).
  - intros block Hc. destruct (negb (Nat.eqb n0 n1)); [discriminate|].
    assert (Hb : block = aablock) by congruence. clear Hc. subst block.
    split; [reflexivity|]. exists k0, k1.
    split; [|split].
    + intros ->. simpl in Hnd. inversion Hnd as [|? ? Hnotin _]; subst.
      apply Hnotin. now left.
    + exact (proj2 (Hsound k0 n0 (or_introl eq_refl))).
    + exact (proj2 (Hsound k1 n1 (or_intror (or_introl eq_refl)))).
Qed.

(** ** Reading the residue off a haplotype label *)

Lemma select_presence_absent haplo aalist :
  forallb (fun c => negb (is_presence c)) haplo = true ->
  select_presence haplo aalist = [].
Proof.
  revert aalist. induction haplo as [|c haplo IH]; intros aalist Hnone;
    [destruct aalist; reflexivity|].
  simpl in Hnone. apply andb_true_iff in Hnone. destruct Hnone as [Hc Hrest].
  destruct aalist as [|a aalist]; [reflexivity|]. simpl.
  apply negb_true_iff in Hc. rewrite Hc. now apply IH.
Qed.

Lemma select_presence_app h1 h2 a1 a2 :
  List.length h1 = List.length a1 ->
  select_presence (h1 ++ h2) (a1 ++ a2)
  = select_presence h1 a1 ++ select_presence h2 a2.
Proof.
  revert a1. induction h1 as [|c h1 IH]; intros [|a a1] Hlen; simpl in *;
    try discriminate; [reflexivity|].
  destruct (is_presence c); simpl; rewrite IH by lia; reflexivity.
Qed.

Lemma list_ascii_of_string_app (s1 s2 : string) :
  list_ascii_of_string (s1 ++ s2)
  = list_ascii_of_string s1 ++ list_ascii_of_string s2.
Proof. induction s1 as [|c s1 IH]; simpl; [reflexivity|]. now rewrite IH. Qed.

(** A label with a single presence mark ([P], [T] or [p]), on the row of a
    variant id whose suffix is one residue letter, resolves to that letter;
    a label without any presence mark resolves to the empty string, which
    [get_aminoacids] leaves out of its list. *)
Theorem getRefAA_single_presence (before_ after_ : string) (mark residue : ascii)
  (ids_before ids_after : list string) (id : string) :
  forallb (fun c => negb (is_presence c)) (list_ascii_of_string before_) = true ->
  forallb (fun c => negb (is_presence c)) (list_ascii_of_string after_) = true ->
  is_presence mark = true ->
  List.length ids_before = String.length before_ ->
  split_last "_" id = str1 residue ->
  let aalist := ids_before ++ id :: ids_after in
  getRefAA (before_ ++ String mark after_) aalist = Single (str1 residue)
  /\ getRefAA (before_ ++ after_) aalist = Single EmptyString
  /\ get_aminoacids aalist [(before_ ++ String mark after_)%string; (before_ ++ after_)%string]
     = [Single (str1 residue)].
Proof.
  intros Hb Ha Hm Hlen Hid. cbn zeta.
  assert (Hlen' : List.length (list_ascii_of_string before_)
                  = List.length (map (split_last "_") ids_before)).
  { rewrite length_map, Hlen. clear. induction before_; simpl; auto. }
  assert (H1 : select_presence (list_ascii_of_string (before_ ++ String mark after_))
                 (map (split_last "_") (ids_before ++ id :: ids_after))
               = [str1 residue]).
  { rewrite list_ascii_of_string_app, map_app, select_presence_app by exact Hlen'.
    rewrite (select_presence_absent _ _ Hb). simpl. rewrite Hm, Hid.
    now rewrite (select_presence_absent _ _ Ha). }
  assert (H0 : select_presence (list_ascii_of_string (before_ ++ after_))
                 (map (split_last "_") (ids_before ++ id :: ids_after))
               = []).
  { apply select_presence_absent. rewrite list_ascii_of_string_app, forallb_app.
    now rewrite Hb, Ha. }
  unfold getRefAA, get_aminoacids. cbn [map]. rewrite H1, H0.
  repeat split; reflexivity.
Qed.

Lemma getRefAA_single_presence_witness :
  getRefAA "AT" ["AA_A_9_29910558_F"; "AA_A_9_29910558_Y"] = Single "Y".
Proof.
  exact (proj1 (getRefAA_single_presence "A" "" "T" "Y" ["AA_A_9_29910558_F"] []
                  "AA_A_9_29910558_Y" eq_refl eq_refl eq_refl eq_refl eq_refl)).
Defined.

(** ** The orchestrators over many variants *)

Lemma analyseSNP_loop_ids round3 glm_binomial ols fam_ modeltype variants :
  forall conf_int_ output res,
    analyseSNP_loop round3 glm_binomial ols variants fam_ modeltype conf_int_ output
    = ret res ->
    map snp_VARIANT res
    = map snp_VARIANT output ++ map (fun v => info_AA_ID (fst v)) variants
    /\ map snp_POS res
       = map snp_POS output ++ map (fun v => info_POS (fst v)) variants.
Proof.
  induction variants as [|[snpinfo snpdf] variants IH]; intros ci output res Hres.
  - simpl in Hres. inversion Hres. now rewrite !app_nil_r.
  - simpl in Hres. destruct (obt_haplo_hard snpdf) as [e|h]; [discriminate|].
    simpl in Hres.
    destruct (Nat.eqb (AAcount h) 2).
    + destruct (linear_model _ _ _ _ _) as [[[p c] lo] hi].
      apply IH in Hres. rewrite !map_app in Hres. simpl in Hres.
      rewrite <- !app_assoc in Hres. exact Hres.
    + destruct ci as [[lo hi]|]; [|discriminate].
      apply IH in Hres. rewrite !map_app in Hres. simpl in Hres.
      rewrite <- !app_assoc in Hres. exact Hres.
Qed.

Lemma analyseSNP_loop_univariate round3 glm_binomial ols fam_ modeltype variants :
  forall hs conf_int_ output,
    Forall2 (fun v h => obt_haplo_hard (snd v) = ret h /\ AAcount h = 2) variants hs ->
    analyseSNP_loop round3 glm_binomial ols variants fam_ modeltype conf_int_ output
    = ret (output
           ++ map (fun vh => snp_row_of round3 glm_binomial ols fam_ modeltype
                               (fst (fst vh)) (snd vh))
                (combine variants hs)).
Proof.
  induction variants as [|[snpinfo snpdf] variants IH]; intros hs ci output Hall.
  - inversion Hall. simpl. now rewrite app_nil_r.
  - inversion Hall as [|? h ? hs' [Hh Hcount] Hrest]; subst. simpl in *.
    rewrite Hh. simpl. rewrite Hcount. simpl. unfold snp_row_of.
    destruct (linear_model _ _ _ _ _) as [[[p c] lo] hi].
    rewrite (IH hs' _ _ Hrest). now rewrite <- app_assoc.
Qed.

(** Whenever [analyseSNP] returns, its rows are the variants in iteration
    order. When every variant is fitted (hard calls, [AAcount] 2) it returns
    one row per variant and each row holds the p-value, coefficient and
    confidence bounds of the fit of that variant's own matrix. *)
Theorem analyseSNP_rows (round3 : float -> float)
  (glm_binomial ols : string -> abt frame -> fitted)
  (variants : list (variant_info * block)) (fam_ : fam) (modeltype : string) :
  (forall res,
      analyseSNP round3 glm_binomial ols variants fam_ modeltype = ret res ->
      map snp_VARIANT res = map (fun v => info_AA_ID (fst v)) variants
      /\ map snp_POS res = map (fun v => info_POS (fst v)) variants)
  /\ (forall hs,
        Forall2 (fun v h => obt_haplo_hard (snd v) = ret h /\ AAcount h = 2)
          variants hs ->
        analyseSNP round3 glm_binomial ols variants fam_ modeltype
        = ret (map (fun vh => snp_row_of round3 glm_binomial ols fam_ modeltype
                                (fst (fst vh)) (snd vh))
                 (combine variants hs))).
Proof.
  split.
  - intros res Hres.
    exact (analyseSNP_loop_ids round3 glm_binomial ols fam_ modeltype variants
             None [] res Hres).
  - intros hs Hall. unfold analyseSNP.
    now rewrite (analyseSNP_loop_univariate round3 glm_binomial ols fam_ modeltype
                   variants hs None [] Hall).
Qed.



(** ** Soft calls: residue columns and their names *)

Lemma replace_char_clean old new s c :
  ~ In c (list_ascii_of_string new) ->
  (c = old \/ ~ In c (list_ascii_of_string s)) ->
  ~ In c (list_ascii_of_string (replace_char old new s)).
Proof.
  intros Hnew. induction s as [|x s IH]; intro Hs; simpl; [tauto|].
  destruct (Ascii.eqb_spec x old) as [->|Hne].
  - rewrite list_ascii_of_string_app. intro Hin. apply in_app_or in Hin.
    destruct Hin as [Hin|Hin]; [contradiction|].
    revert Hin. apply IH. destruct Hs as [Hs|Hs]; [now left|].
    right. intro H. apply Hs. simpl. now right.
  - simpl. intros [Hx|Hin].
    + destruct Hs as [Hs|Hs]; [congruence|]. apply Hs. simpl. now left.
    + revert Hin. apply IH. destruct Hs as [Hs|Hs]; [now left|].
      right. intro H. apply Hs. simpl. now right.
Qed.

Lemma soft_column_name_clean cname :
  String.prefix "AA_" (soft_column_name cname) = true
  /\ ~ In "."%char (list_ascii_of_string (soft_column_name cname))
  /\ ~ In "*"%char (list_ascii_of_string (soft_column_name cname)).
Proof.
  unfold soft_column_name. split; [|split].
  - simpl. destruct (replace_char _ _ _); reflexivity.
  - simpl. intros [H|[H|[H|H]]]; try discriminate. revert H.
    apply replace_char_clean.
    + simpl. intuition discriminate.
    + right. apply replace_char_clean; [simpl; intuition discriminate|now left].
  - simpl. intros [H|[H|[H|H]]]; try discriminate. revert H.
    apply replace_char_clean; [simpl; intuition discriminate|now left].
Qed.

Lemma soft_column_name_one_letter (a b : string) :
  String.length a = 1 -> String.length b = 1 ->
  soft_column_name a = soft_column_name b -> a = b.
Proof.
  destruct a as [|x [|? ?]]; try discriminate.
  destruct b as [|y [|? ?]]; try discriminate.
  intros _ _. unfold soft_column_name. simpl.
  destruct (Ascii.eqb_spec x "."), (Ascii.eqb_spec y "."); subst; simpl;
    try reflexivity;
    repeat match goal with
           | |- context [Ascii.eqb ?c "*"] => destruct (Ascii.eqb_spec c "*"); subst; simpl
           end;
    intro H; try reflexivity; try discriminate H; inversion H; congruence.
Qed.


Lemma makehaploprob_one_letter (series_sum : list float -> float)
  (aa_df : dosage_block) (basicQC : bool) :
  Forall (fun col => String.length (fst col) = 1
                     /\ In (fst col)
                          (map (fun r => split_last "_" (fst r)) (dosage_rows aa_df)))
    (dosage_columns (makehaploprob series_sum aa_df basicQC)).
Proof.
  unfold makehaploprob. cbn [dosage_columns].
  set (labelled := map (fun r => (split_last "_" (fst r), snd r)) (dosage_rows aa_df)).
  set (kept := filter (fun r => Nat.eqb (String.length (fst r)) 1) labelled).
  set (cols := map (fun r : string * list float =>
                      (fst r, sort_by_sample (dosage_samples aa_df) (snd r))) kept).
  assert (Hcols : Forall (fun col : string * list float =>
                            String.length (fst col) = 1
                            /\ In (fst col)
                                 (map (fun r => split_last "_" (fst r)) (dosage_rows aa_df)))
                    cols).
  { apply Forall_forall. intros col Hcol. unfold cols in Hcol.
    apply in_map_iff in Hcol. destruct Hcol as (r & <- & Hr). cbn [fst].
    unfold kept in Hr. apply filter_In in Hr. destruct Hr as [Hr Hlen].
    split; [now apply Nat.eqb_eq|].
    unfold labelled in Hr. apply in_map_iff in Hr. destruct Hr as (r0 & <- & Hr0).
    cbn [fst]. apply in_map_iff. now exists r0. }
  destruct basicQC; [|exact Hcols].
  rewrite Forall_forall in *. intros col Hcol. apply Hcols.
  apply filter_In in Hcol. tauto.
Qed.

(** [makehaploprob] keeps a row only when the suffix of its id is a single
    residue letter: every column label of the result is one character long
    and is the suffix of a row of the input, rows with a longer (ambiguous)
    suffix never become columns, and without the frequency floor the labels
    are exactly the one-letter suffixes in row order. The rows of the result
    are the samples in ascending order. *)
Theorem makehaploprob_labels (series_sum : list float -> float)
  (aa_df : dosage_block) (basicQC : bool) :
  let df := makehaploprob series_sum aa_df basicQC in
  let suffixes := map (fun r => split_last "_" (fst r)) (dosage_rows aa_df) in
  Forall (fun col => String.length (fst col) = 1 /\ In (fst col) suffixes)
    (dosage_columns df)
  /\ (basicQC = false ->
      map fst (dosage_columns df)
      = filter (fun s => Nat.eqb (String.length s) 1) suffixes)
  /\ ascending (dosage_index df)
  /\ Permutation (dosage_samples aa_df) (dosage_index df).
Proof.
  cbn zeta. split; [apply makehaploprob_one_letter|]. unfold makehaploprob.
  split; [|split].
  - intros ->. cbn [dosage_columns].
    rewrite map_map. cbn [fst].
    clear. induction (dosage_rows aa_df) as [|r rs IH]; [reflexivity|].
    simpl. destruct (Nat.eqb (String.length (split_last "_" (fst r))) 1); simpl;
      now rewrite IH.
  - cbn [dosage_index].
    pose proof (Sorted_map_key (fun x : string => x) _
                  (stable_sort_ascending (fun x : string => x) (dosage_samples aa_df)))
      as Hasc.
    now rewrite map_id in Hasc.
  - cbn [dosage_index]. apply stable_sort_perm.
Qed.

Lemma NoDup_map_inj_on {A B : Type} (f : A -> B) (l : list A) :
  (forall a b, In a l -> In b l -> f a = f b -> a = b) ->
  NoDup l -> NoDup (map f l).
Proof.
  intros Hinj Hnd. induction Hnd as [|x l Hnotin Hnd IH]; simpl; constructor.
  - intro Hin. apply in_map_iff in Hin. destruct Hin as (y & Hy & Hin).
    apply Hnotin. rewrite <- (Hinj y x); [exact Hin|now right|now left|exact Hy].
  - apply IH. intros a b Ha Hb. apply Hinj; now right.
Qed.

Lemma NoDup_filter {A : Type} (f : A -> bool) (l : list A) :
  NoDup l -> NoDup (filter f l).
Proof.
  induction 1 as [|x l Hnotin Hnd IH]; simpl; [constructor|].
  destruct (f x); [|exact IH]. constructor; [|exact IH].
  intro Hin. apply filter_In in Hin. tauto.
Qed.

(** [obt_haplo_soft] raises [ValueError] on a slice without rows and, on
    several rows, when no residue column survives. On exactly one row it
    returns the lone dosage column under the name ["solo_amino_acid"] with
    [AAcount] 2, the samples in the order of the data columns. On several
    rows it drops the columns of the reference residue and renames the
    rest: every exposure name starts with ["AA_"] and holds neither [.] nor
    [*], and residues that were distinct keep distinct names. *)
Theorem obt_haplo_soft_outcome (series_sum : list float -> float)
  (np_argmax : list float -> nat) (aadf : dosage_block)
  (infodf : list (string * string)) :
  let n := List.length (dosage_rows aadf) in
  let df := makehaploprob series_sum aadf true in
  let labels := map fst (dosage_columns df) in
  let run := obt_haplo_soft series_sum np_argmax aadf infodf in
  (n = 0 -> exists msg, run = raise (ValueError msg))
  /\ (n = 1 ->
      exists out,
        run = ret out
        /\ AAcount out = 2 /\ haplocount out = 1
        /\ table_columns (haplodf out) = ["solo_amino_acid"]
        /\ dosage_index (haplodf out) = dosage_samples aadf)
  /\ (1 < n ->
      (labels = [] -> exists msg, run = raise (ValueError msg))
      /\ (labels <> [] ->
          exists out ref,
            run = ret out
            /\ refAA out = Single ref
            /\ AAcount out = List.length labels
            /\ table_columns (haplodf out)
               = map soft_column_name
                   (filter (fun label => negb (String.eqb label ref)) labels)
            /\ haplocount out = List.length (table_columns (haplodf out))
            /\ Forall (fun name =>
                         String.prefix "AA_" name = true
                         /\ ~ In "."%char (list_ascii_of_string name)
                         /\ ~ In "*"%char (list_ascii_of_string name))
                 (table_columns (haplodf out))
            /\ (NoDup labels -> NoDup (table_columns (haplodf out))))).
Proof.
  cbn zeta. unfold obt_haplo_soft. split; [|split].
  - intro Hn. rewrite Hn. cbn. destruct (dosage_rows aadf); [|discriminate].
    eexists. reflexivity.
  - intro Hn. rewrite Hn. cbn.
    destruct (dosage_rows aadf) as [|row [|row' rest]]; try discriminate.
    destruct (Nat.eqb (String.length (split_last "_" (fst row))) 1);
      eexists; repeat split; reflexivity.
  - intro Hn. apply Nat.ltb_lt in Hn. rewrite Hn.
    pose proof (makehaploprob_one_letter series_sum aadf true) as Hone.
    set (df := makehaploprob series_sum aadf true) in *.
    split.
    + intro Hnil. destruct (dosage_columns df); [|discriminate].
      eexists. reflexivity.
    + intro Hne. destruct (dosage_columns df) as [|col cols] eqn:Ecols;
        [contradiction|].
      rewrite <- Ecols in *. clear Ecols col cols Hne.
      set (ref := nth (np_argmax (map (fun col => series_sum (snd col))
                                    (dosage_columns df)))
                    (map fst (dosage_columns df)) EmptyString).
      clearbody ref.
      assert (Hnames :
                map fst
                  (map (fun col : string * list float => (soft_column_name (fst col), snd col))
                     (filter (fun col => negb (String.eqb (fst col) ref))
                        (dosage_columns df)))
                = map soft_column_name
                    (filter (fun label => negb (String.eqb label ref))
                       (map fst (dosage_columns df)))).
      { rewrite map_map. cbn [fst]. clear.
        induction (dosage_columns df) as [|c cs IH]; [reflexivity|].
        simpl. destruct (negb (String.eqb (fst c) ref)); simpl; now rewrite IH. }
      eexists. exists ref. split; [reflexivity|].
      cbn [refAA AAcount haplocount haplodf].
      unfold table_columns, dosage_frame_Table. cbn [dosage_columns].
      rewrite Hnames.
      split; [reflexivity|]. split; [reflexivity|]. split; [reflexivity|].
      split; [|split].
      * rewrite length_map. clear.
        induction (dosage_columns df) as [|c cs IH]; [reflexivity|].
        simpl. destruct (negb (String.eqb (fst c) ref)); simpl; now rewrite IH.
      * apply Forall_forall. intros name Hname. apply in_map_iff in Hname.
        destruct Hname as (label & <- & _). apply soft_column_name_clean.
      * intro Hnd. apply NoDup_map_inj_on; [|now apply NoDup_filter].
        intros a b Ha Hb. apply filter_In in Ha, Hb.
        destruct Ha as [Ha _], Hb as [Hb _].
        rewrite Forall_forall in Hone.
        apply in_map_iff in Ha, Hb.
        destruct Ha as (ca & <- & Hca), Hb as (cb & <- & Hcb).
        apply soft_column_name_one_letter; [apply (Hone ca Hca)|apply (Hone cb Hcb)].
Qed.

(** ** The amino-acid table keeps whole positions *)

Lemma filter_filter_implied {A : Type} (f g : A -> bool) (l : list A) :
  (forall x, In x l -> f x = true -> g x = true) ->
  filter f (filter g l) = filter f l.
Proof.
  induction l as [|x l IH]; intro Himp; [reflexivity|]. simpl.
  destruct (g x) eqn:Eg; simpl.
  - destruct (f x); rewrite IH by (intros y Hy; apply Himp; now right); reflexivity.
  - destruct (f x) eqn:Ef.
    + rewrite (Himp x (or_introl eq_refl) Ef) in Eg. discriminate.
    + apply IH. intros y Hy. apply Himp. now right.
Qed.

Lemma filter_length_and {A : Type} (f g : A -> bool) (l : list A) :
  List.length (filter (fun x => (f x && g x)%bool) l) <= List.length (filter f l).
Proof.
  induction l as [|x l IH]; [reflexivity|]. simpl.
  destruct (f x), (g x); simpl; lia.
Qed.

(** The ["AA"] table that [add_data] builds keeps the rows of an [AA_ID]
    all together or not at all, in their order, and every [AA_ID] it keeps
    has at least two rows; when every id has its position (four tokens or
    more) it keeps exactly the ids whose [AA_ID] is shared by at least two
    rows. *)
Theorem add_data_AA_groups (ids : list string) (id : string) :
  (In id (add_data_AA ids) ->
   filter (same_AA_ID (idname (breakitup id))) (add_data_AA ids)
   = filter (same_AA_ID (idname (breakitup id))) ids
   /\ 2 <= List.length (filter (same_AA_ID (idname (breakitup id))) (add_data_AA ids)))
  /\ (Forall (fun i => 4 <= List.length (split "_" i)) ids ->
      (In id (add_data_AA ids)
       <-> In id ids
           /\ 2 <= List.length (filter (same_AA_ID (idname (breakitup id))) ids))).
Proof.
  split.
  - intro Hin. unfold add_data_AA in *. apply filter_In in Hin.
    destruct Hin as [Hin Hcount]. apply Nat.ltb_lt in Hcount.
    assert (Hsame : filter (same_AA_ID (idname (breakitup id)))
                      (filter (fun id0 => Nat.ltb 1 (pos_count (idname (breakitup id0)) ids))
                         ids)
                    = filter (same_AA_ID (idname (breakitup id))) ids).
    { apply filter_filter_implied. intros x _ Hx. unfold same_AA_ID in Hx.
      apply String.eqb_eq in Hx. rewrite Hx. now apply Nat.ltb_lt. }
    split; [exact Hsame|]. rewrite Hsame.
    eapply Nat.le_trans; [exact Hcount|]. unfold pos_count.
    apply filter_length_and.
  - intro Hpos. unfold add_data_AA. rewrite filter_In, Nat.ltb_lt.
    assert (Hcount : pos_count (idname (breakitup id)) ids
                     = List.length (filter (same_AA_ID (idname (breakitup id))) ids)).
    { unfold pos_count. f_equal. apply filter_ext_in. intros x Hx.
      rewrite Forall_forall in Hpos. specialize (Hpos x Hx).
      assert (Hna : notna (genepos (breakitup x)) = true).
      { unfold breakitup. destruct (Nat.ltb_spec 1 (List.length (split "_" x))); [|lia].
        cbn [genepos]. unfold token_or_nan.
        destruct (nth_error (split "_" x) 3) eqn:E; [reflexivity|].
        apply nth_error_None in E. lia. }
      rewrite Hna. apply andb_true_r. }
    rewrite Hcount. reflexivity.
Qed.

(** ** Ties between equally frequent labels *)

Lemma string_leb_trans (a b c : string) :
  String.leb a b = true -> String.leb b c = true -> String.leb a c = true.
Proof.
  unfold String.leb. revert b c.
  induction a as [|x a IH]; intros [|y b] [|z c]; simpl; try easy.
  unfold Ascii.compare.
  destruct (N.compare_spec (N_of_ascii x) (N_of_ascii y)) as [Hxy|Hxy|Hxy];
    destruct (N.compare_spec (N_of_ascii y) (N_of_ascii z)) as [Hyz|Hyz|Hyz];
    destruct (N.compare_spec (N_of_ascii x) (N_of_ascii z)) as [Hxz|Hxz|Hxz];
    try easy; try (exfalso; lia); try (intros; exfalso; congruence).
  apply IH.
Qed.

Lemma string_leb_refl (a : string) : String.leb a a = true.
Proof.
  unfold String.leb. induction a as [|x a IH]; simpl; [reflexivity|].
  unfold Ascii.compare. now rewrite N.compare_refl.
Qed.

Lemma StronglySorted_map_filter {A : Type} (R : string -> string -> Prop)
  (key : A -> string) (keep : A -> bool) l :
  StronglySorted R (map key l) -> StronglySorted R (map key (filter keep l)).
Proof.
  induction l as [|x l IH]; simpl; intro Hs; [constructor|].
  apply StronglySorted_inv in Hs. destruct Hs as [Hs Hall].
  destruct (keep x); simpl; [|now apply IH].
  constructor; [now apply IH|].
  rewrite Forall_forall in *. intros y Hy. apply Hall.
  apply in_map_iff in Hy. destruct Hy as (z & <- & Hz).
  apply in_map. apply filter_In in Hz. tauto.
Qed.

Lemma makehaplodf_names_sorted aa_df basicQC :
  StronglySorted (fun a b => String.leb a b = true)
    (column_names (fst (makehaplodf aa_df basicQC))).
Proof.
  assert (Hcm : StronglySorted (fun a b => String.leb a b = true)
                  (column_names (count_matrix aa_df))).
  { rewrite count_matrix_names. unfold sorted_unique.
    apply Sorted_StronglySorted.
    - intros a b c. apply string_leb_trans.
    - pose proof (Sorted_map_key (fun x : string => x) _
                    (stable_sort_ascending (fun x : string => x)
                       (nodup string_dec (map snd (copy_keys aa_df))))) as Hasc.
      now rewrite map_id in Hasc. }
  unfold makehaplodf. cbn [fst]. destruct basicQC; [|exact Hcm].
  unfold frequency_floor, column_names. cbn [columns].
  now apply StronglySorted_map_filter.
Qed.

Lemma StronglySorted_nth (l : list string) i j :
  StronglySorted (fun a b => String.leb a b = true) l ->
  i <= j -> j < List.length l ->
  String.leb (nth i l EmptyString) (nth j l EmptyString) = true.
Proof.
  intro Hs. revert i j. induction Hs as [|x l Hs IH Hall]; intros i j Hij Hj;
    [simpl in Hj; lia|].
  destruct i as [|i], j as [|j]; simpl in *; try lia.
  - apply string_leb_refl.
  - rewrite Forall_forall in Hall. apply Hall, nth_In. lia.
  - apply IH; lia.
Qed.

(** When [obt_haplo_hard] picks its reference by frequency, with
    [np.argmax] of the column totals of the matrix [makehaplodf] returned,
    the column picked has the largest total and, among the columns with
    that total, the label that comes first in the order of the labels. *)
Theorem reference_tie_break (aadf : block) (basicQC : bool) (refix : nat) :
  argmax (column_totals (fst (makehaplodf aadf basicQC))) = ret refix ->
  let df := fst (makehaplodf aadf basicQC) in
  let refcol := nth refix (column_names df) EmptyString in
  In refcol (column_names df)
  /\ (forall col, In col (columns df) ->
        column_total col <= nth refix (column_totals df) 0
        /\ (column_total col = nth refix (column_totals df) 0 ->
            String.leb refcol (fst col) = true)).
Proof.
  intro Harg. cbn zeta.
  pose proof (makehaplodf_names_sorted aadf basicQC) as Hsorted.
  set (df := fst (makehaplodf aadf basicQC)) in *.
  destruct (argmax_cases (column_totals df)) as [_ Hne].
  destruct Hne as (r & Hr & Hlt & Hmax & Hfirst).
  { intro Hnil. rewrite Hnil in Harg. discriminate Harg. }
  assert (r = refix) by (rewrite Hr in Harg; now inversion Harg). subst r.
  assert (Hlen : List.length (column_totals df) = List.length (column_names df))
    by (unfold column_totals, column_names; now rewrite !length_map).
  split; [apply nth_In; lia|].
  intros col Hcol. split.
  - apply Hmax. unfold column_totals. now apply in_map.
  - intro Heq.
    destruct (In_nth _ _ (EmptyString, []) Hcol) as (j & Hj & Hnth).
    assert (Htot : nth j (column_totals df) 0 = column_total col).
    { unfold column_totals. change 0 with (column_total (EmptyString, [])).
      now rewrite map_nth, Hnth. }
    assert (Hname : nth j (column_names df) EmptyString = fst col).
    { unfold column_names. change EmptyString with (fst (EmptyString, @nil nat)).
      now rewrite map_nth, Hnth. }
    destruct (Nat.lt_ge_cases j refix) as [Hlt'|Hge].
    + specialize (Hfirst j Hlt'). lia.
    + rewrite <- Hname. apply StronglySorted_nth; [exact Hsorted|exact Hge|].
      unfold column_names. rewrite length_map. exact Hj.
Qed.

Lemma reference_tie_break_witness :
  nth 0 (column_names (fst (makehaplodf example_snp' true))) EmptyString = "A"
  /\ forall col, In col (columns (fst (makehaplodf example_snp' true))) ->
       column_total col = 2 -> String.leb "A" (fst col) = true.
Proof.
  split; [reflexivity|]. intros col Hcol Htotal.
  exact (proj2 (proj2 (reference_tie_break example_snp' true 0 eq_refl) col Hcol) Htotal).
Defined.

(** ** The formulas of the omnibus test *)

Lemma but_last2_exposures (cols : list string) :
  but_last2 (cols ++ ["SEX"; "PHENO"]) = cols.
Proof.
  unfold but_last2. rewrite length_app. simpl.
  replace (List.length cols + 2 - 2) with (List.length cols + 0) by lia.
  rewrite firstn_app_2. simpl. now rewrite app_nil_r.
Qed.

(** Called as [analyseAA] calls it, with [haplotypenumber] the number of
    columns of the matrix, [obt] fits the alternative model on every matrix
    column and the null model on [SEX] alone, and returns one rounded
    coefficient of the alternative fit per matrix column, in column order;
    with fewer haplotype columns than matrix columns, the remaining columns
    are the regressors of the null model. *)
Theorem obt_formulas (chi2_sf : float -> float -> float)
  (f_sf : float -> float -> float -> float)
  (log_loss : list float -> list (float * float) -> float)
  (T : Type) (HT : Table T) (glm_binomial ols : string -> abt T -> fitted)
  (round3 : float -> float) (a : abt T) (haplotypenumber : nat) (model : string) :
  let cols := table_columns (exposure a) in
  let fit := if String.eqb (lower model) "logit" then glm_binomial else ols in
  let altf := ("PHENO ~ C(SEX) +" ++ join "+" cols)%string in
  let nullf :=
    if Nat.ltb haplotypenumber (List.length cols)
    then ("PHENO ~ C(SEX) +" ++ join "+" (skipn haplotypenumber cols))%string
    else "PHENO ~ C(SEX)" in
  haplotypenumber <= List.length cols ->
  obt chi2_sf f_sf log_loss glm_binomial ols round3 a haplotypenumber model
  = (fst (lrtest chi2_sf (fit nullf a) (fit altf a)),
     snd (lrtest chi2_sf (fit nullf a) (fit altf a)),
     fst (anova f_sf log_loss (fit nullf a) (fit altf a) (PHENO (covariates a)) model),
     snd (anova f_sf log_loss (fit nullf a) (fit altf a) (PHENO (covariates a)) model),
     map (fun col => round3 (params (fit altf a) col)) (firstn haplotypenumber cols)).
Proof.
  cbn zeta. intro Hn. unfold obt, abt_columns.
  rewrite but_last2_exposures, length_skipn.
  rewrite (firstn_app haplotypenumber).
  replace (haplotypenumber - List.length (table_columns (exposure a))) with 0 by lia.
  cbn [firstn]. rewrite app_nil_r.
  replace (Nat.ltb 0 (List.length (table_columns (exposure a)) - haplotypenumber))
    with (Nat.ltb haplotypenumber (List.length (table_columns (exposure a)))).
  2:{ destruct (Nat.ltb_spec haplotypenumber (List.length (table_columns (exposure a))));
      destruct (Nat.ltb_spec 0 (List.length (table_columns (exposure a)) - haplotypenumber));
      lia || reflexivity. }
  destruct (String.eqb (lower model) "logit");
    destruct (lrtest _ _ _) as [lrstat lrp];
    destruct (anova _ _ _ _ _ _) as [fstat fp]; reflexivity.
Qed.

Lemma obt_formulas_witness :
  List.length
    (snd (obt (fun _ _ => 0%float) (fun _ _ _ => 0%float) (fun _ _ => 0%float)
            example_fit example_fit (fun x => x)
            (mkAbt (mkFrame ["S1"; "S2"] [("AT", [0; 1]); ("TA", [0; 1])])
               (mkFam ["S1"; "S2"] [1%float; 2%float] [0%float; 1%float]))
            2 "linear"))
  = 2.
Proof.
  rewrite (obt_formulas (fun _ _ => 0%float) (fun _ _ _ => 0%float) (fun _ _ => 0%float)
             frame frame_Table example_fit example_fit (fun x => x)
             (mkAbt (mkFrame ["S1"; "S2"] [("AT", [0; 1]); ("TA", [0; 1])])
                (mkFam ["S1"; "S2"] [1%float; 2%float] [0%float; 1%float]))
             2 "linear");
    [reflexivity|].
  cbn. lia.
Defined.
